(** * Bugger: configuration module and game logic

    A shallow embedding of [src/js/configModule.js] (the CONFIG closure) and
    of [src/js/app.js] (collision test, enemies, player, streak), with the
    scaled-coordinate accessors of the CONFIG-based variant of app.js.

    Number model.  A JavaScript number is modelled exactly:
    - the integer tunables (lane, column and enemy counts, difficulty, the
      tileset's pixel constants, the streak) are [Z];
    - pixel positions, speeds, time deltas, the scaling factor and the
      outcome of [Math.random()] are rationals [Q], compared up to [==];
    - [Math.floor] is [Qfloor], [/] is the field division of [Q].
    Under the [Math.floor] of [getRandomInt], where rounding decides which
    integer comes out, every operation is rounded to the nearest double
    ([Double.round64]).  Elsewhere the arithmetic is exact: the rounding of
    a position or a size to the next double, [NaN] and the infinities are
    outside the model. *)

From Stdlib Require Import ZArith QArith Qround Qminmax Qpower Qabs.
From Stdlib Require Import Bool List String Lia Lqa.
Import ListNotations.

Local Open Scope Z_scope.

(** ** Comparisons on rationals as booleans *)

Definition Qltb (a b : Q) : bool := negb (Qle_bool b a).
Definition Qgtb (a b : Q) : bool := Qltb b a.

(** ** configModule.js *)

Module CONFIG.

(** The private [settings] object of the closure.  The first seven fields are
    the object literal; the last five are assigned by [init], and the record
    describes the object once they are. *)
Record Settings : Type := mkSettings {
  colWidth : Z;
  rowHeight : Z;
  tileBottom : Z;
  tileTop : Z;
  tileHeight : Z;
  dy : Z;
  scale : Q;
  numLanes : Z;
  numCols : Z;
  numEnemies : Z;
  baseEnemySpeed : Q;
  gameDifficulty : Z
}.

(** The object literal the closure starts from.  The five tunables are absent
    from it until [init] assigns them; the [0] written here stands for the
    absent value and is overwritten by [init] before any getter reads it. *)
Definition settings0 : Settings :=
  {| colWidth := 101; rowHeight := 83; tileBottom := 37; tileTop := 51;
     tileHeight := 171; dy := -26; scale := 1;
     numLanes := 0; numCols := 0; numEnemies := 0;
     baseEnemySpeed := 0; gameDifficulty := 0 |}.

(** [init]: assigns the five tunables, leaves the rest of the object alone. *)
Definition init (nLanes nCols nEnemies : Z) (baseSpeed : Q) (difficulty : Z)
  (s : Settings) : Settings :=
  {| colWidth := colWidth s; rowHeight := rowHeight s;
     tileBottom := tileBottom s; tileTop := tileTop s;
     tileHeight := tileHeight s; dy := dy s; scale := scale s;
     numLanes := nLanes; numCols := nCols; numEnemies := nEnemies;
     baseEnemySpeed := baseSpeed; gameDifficulty := difficulty |}.

(** *** Field updates *)

Definition set_scale (v : Q) (s : Settings) : Settings :=
  {| colWidth := colWidth s; rowHeight := rowHeight s;
     tileBottom := tileBottom s; tileTop := tileTop s;
     tileHeight := tileHeight s; dy := dy s; scale := v;
     numLanes := numLanes s; numCols := numCols s;
     numEnemies := numEnemies s; baseEnemySpeed := baseEnemySpeed s;
     gameDifficulty := gameDifficulty s |}.

Definition set_gameDifficulty (v : Z) (s : Settings) : Settings :=
  {| colWidth := colWidth s; rowHeight := rowHeight s;
     tileBottom := tileBottom s; tileTop := tileTop s;
     tileHeight := tileHeight s; dy := dy s; scale := scale s;
     numLanes := numLanes s; numCols := numCols s;
     numEnemies := numEnemies s; baseEnemySpeed := baseEnemySpeed s;
     gameDifficulty := v |}.

Definition set_numEnemies (v : Z) (s : Settings) : Settings :=
  {| colWidth := colWidth s; rowHeight := rowHeight s;
     tileBottom := tileBottom s; tileTop := tileTop s;
     tileHeight := tileHeight s; dy := dy s; scale := scale s;
     numLanes := numLanes s; numCols := numCols s;
     numEnemies := v; baseEnemySpeed := baseEnemySpeed s;
     gameDifficulty := gameDifficulty s |}.

Definition set_numLanes (v : Z) (s : Settings) : Settings :=
  {| colWidth := colWidth s; rowHeight := rowHeight s;
     tileBottom := tileBottom s; tileTop := tileTop s;
     tileHeight := tileHeight s; dy := dy s; scale := scale s;
     numLanes := v; numCols := numCols s;
     numEnemies := numEnemies s; baseEnemySpeed := baseEnemySpeed s;
     gameDifficulty := gameDifficulty s |}.

Definition set_numCols (v : Z) (s : Settings) : Settings :=
  {| colWidth := colWidth s; rowHeight := rowHeight s;
     tileBottom := tileBottom s; tileTop := tileTop s;
     tileHeight := tileHeight s; dy := dy s; scale := scale s;
     numLanes := numLanes s; numCols := v;
     numEnemies := numEnemies s; baseEnemySpeed := baseEnemySpeed s;
     gameDifficulty := gameDifficulty s |}.

(** *** Getters *)

Definition getNumRows (s : Settings) : Z := numLanes s + 3.

Definition getNativeCanvasWidth (s : Settings) : Z := numCols s * colWidth s.

Definition getNativeCanvasHeight (s : Settings) : Z :=
  getNumRows s * rowHeight s + tileTop s + tileBottom s.

Definition getTileHeight (s : Settings) : Q := scale s * inject_Z (tileHeight s).

Definition getScalingFactor (s : Settings) : Q := scale s.

Definition getNativeColWidth (s : Settings) : Z := colWidth s.

Definition getColWidth (s : Settings) : Q := scale s * inject_Z (colWidth s).

Definition getNativeRowHeight (s : Settings) : Z := rowHeight s.

Definition getRowHeight (s : Settings) : Q := scale s * inject_Z (rowHeight s).

Definition getNativeDY (s : Settings) : Z := dy s.

Definition getDY (s : Settings) : Q := scale s * inject_Z (dy s).

Definition getNumLanes (s : Settings) : Z := numLanes s.

Definition getNumCols (s : Settings) : Z := numCols s.

Definition getNumEnemies (s : Settings) : Z := numEnemies s.

Definition getBaseEnemySpeed (s : Settings) : Q := baseEnemySpeed s.

Definition getGameDifficulty (s : Settings) : Z := gameDifficulty s.

Definition getCanvasWidth (s : Settings) : Q :=
  scale s * inject_Z (getNativeCanvasWidth s).

Definition getCanvasHeight (s : Settings) : Q :=
  scale s * inject_Z (getNativeCanvasHeight s).

Definition getPlayerStartCol (s : Settings) : Z :=
  Qfloor (inject_Z (numCols s) / 2).

Definition getPlayerStartRow (s : Settings) : Z := getNumRows s - 1.

(** *** Setters

    A setter returns the value handed back to the caller together with the
    settings object it leaves behind.  [None] is JavaScript's [undefined],
    the result of falling off the end of the function. *)

Definition setScalingFactor (v : Q) (s : Settings) : Q * Settings :=
  let s' := set_scale v s in (scale s', s').

Definition incrementGameDifficulty (s : Settings) : option Z * Settings :=
  if gameDifficulty s <? 20
  then let s' := set_gameDifficulty (gameDifficulty s + 1) s in
       (Some (gameDifficulty s'), s')
  else (None, s).

Definition decrementGameDifficulty (s : Settings) : option Z * Settings :=
  if gameDifficulty s >? 1
  then let s' := set_gameDifficulty (gameDifficulty s - 1) s in
       (Some (gameDifficulty s'), s')
  else (None, s).

Definition incrementNumEnemies (s : Settings) : option Z * Settings :=
  if numEnemies s <? 20
  then let s' := set_numEnemies (numEnemies s + 1) s in
       (Some (numEnemies s'), s')
  else (None, s).

Definition decrementNumEnemies (s : Settings) : option Z * Settings :=
  if numEnemies s >? 0
  then let s' := set_numEnemies (numEnemies s - 1) s in
       (Some (numEnemies s'), s')
  else (None, s).

Definition incrementNumLanes (s : Settings) : option Z * Settings :=
  if numLanes s <? 10
  then let s' := set_numLanes (numLanes s + 1) s in
       (Some (numLanes s'), s')
  else (None, s).

Definition decrementNumLanes (s : Settings) : option Z * Settings :=
  if numLanes s >? 1
  then let s' := set_numLanes (numLanes s - 1) s in
       (Some (numLanes s'), s')
  else (None, s).

Definition incrementNumCols (s : Settings) : option Z * Settings :=
  if numCols s <? 20
  then let s' := set_numCols (numCols s + 1) s in
       (Some (numCols s'), s')
  else (None, s).

Definition decrementNumCols (s : Settings) : option Z * Settings :=
  if numCols s >? 1
  then let s' := set_numCols (numCols s - 1) s in
       (Some (numCols s'), s')
  else (None, s).

End CONFIG.

(** ** Commands on the CONFIG object, and the states they reach *)

Module ConfigRun.
Import CONFIG.

(** The four settings that have an increment and a decrement setter. *)
Inductive Tunable : Type := GameDifficulty | NumEnemies | NumLanes | NumCols.

Definition value (t : Tunable) (s : Settings) : Z :=
  match t with
  | GameDifficulty => gameDifficulty s
  | NumEnemies => numEnemies s
  | NumLanes => numLanes s
  | NumCols => numCols s
  end.

(** What a setter does not touch: every field but the one of [t]. *)
Definition others (t : Tunable) (s : Settings)
  : (Z * Z * Z * Z * Z * Z * Q * Q) * (Z * Z * Z) :=
  (colWidth s, rowHeight s, tileBottom s, tileTop s, tileHeight s, dy s,
   scale s, baseEnemySpeed s,
   match t with
   | GameDifficulty => (numEnemies s, numLanes s, numCols s)
   | NumEnemies => (gameDifficulty s, numLanes s, numCols s)
   | NumLanes => (gameDifficulty s, numEnemies s, numCols s)
   | NumCols => (gameDifficulty s, numEnemies s, numLanes s)
   end).

Definition increment (t : Tunable) : Settings -> option Z * Settings :=
  match t with
  | GameDifficulty => incrementGameDifficulty
  | NumEnemies => incrementNumEnemies
  | NumLanes => incrementNumLanes
  | NumCols => incrementNumCols
  end.

Definition decrement (t : Tunable) : Settings -> option Z * Settings :=
  match t with
  | GameDifficulty => decrementGameDifficulty
  | NumEnemies => decrementNumEnemies
  | NumLanes => decrementNumLanes
  | NumCols => decrementNumCols
  end.

(** The bounds the setters compare against. *)
Definition upper (t : Tunable) : Z :=
  match t with
  | GameDifficulty => 20
  | NumEnemies => 20
  | NumLanes => 10
  | NumCols => 20
  end.

Definition lower (t : Tunable) : Z :=
  match t with
  | GameDifficulty => 1
  | NumEnemies => 0
  | NumLanes => 1
  | NumCols => 1
  end.

(** A call made on the public object after [init]. *)
Inductive Command : Type :=
| Increment (t : Tunable)
| Decrement (t : Tunable)
| SetScalingFactor (v : Q).

Definition exec (s : Settings) (c : Command) : Settings :=
  match c with
  | Increment t => snd (increment t s)
  | Decrement t => snd (decrement t s)
  | SetScalingFactor v => snd (setScalingFactor v s)
  end.

Definition run (cs : list Command) (s : Settings) : Settings :=
  fold_left exec cs s.

End ConfigRun.

(** ** Doubles

    The numbers of JavaScript are IEEE 754 binary64: 53 significant bits,
    exponents from -1022, results rounded to the nearest representable
    number, ties to the one with an even significand.  [round64] is that
    rounding on the rationals (numbers of 2^1024 and beyond, which round to
    an infinity, are not modelled). *)

Module Double.

Local Open Scope Q_scope.

(** For x > 0, the integer e with 2^e <= x < 2^(e+1). *)
Definition exponent (x : Q) : Z :=
  let e0 := (Z.log2 (Qnum x) - Z.log2 (Z.pos (Qden x)))%Z in
  if Qle_bool (2 ^ e0) x then e0 else (e0 - 1)%Z.

(** The smallest exponent of a normal number. *)
Definition emin : Z := (-1022)%Z.

(** The distance between two consecutive doubles around x. *)
Definition ulp (x : Q) : Q := 2 ^ (Z.max (exponent (Qabs x)) emin - 52).

(** The nearest integer, the even one of the two at a tie. *)
Definition rne (q : Q) : Z :=
  let f := Qfloor q in
  match Qcompare (q - inject_Z f) (1 # 2) with
  | Lt => f
  | Gt => (f + 1)%Z
  | Eq => if Z.even f then f else (f + 1)%Z
  end.

(** The double nearest to x. *)
Definition round64 (x : Q) : Q :=
  if Qeq_bool x 0 then 0 else inject_Z (rne (x / ulp x)) * ulp x.

End Double.

(** ** app.js *)

Module App.

Local Open Scope Q_scope.
Local Coercion inject_Z : Z >-> Q.

(** *** Constants of the tileset *)

Definition COLWIDTH : Z := 101.
Definition ROWHEIGHT : Z := 83.
Definition TILEBOTTOM : Z := 37.
Definition TILETOP : Z := 51.
Definition TILEHEIGHT : Z := 171.

(** Vertical adjustment to center sprites in tiles. *)
Definition dy : Z := -26.

(** *** Entities *)

Module Enemy.
Record t : Type := mk { x : Q; y : Q; sprite : string; speed : Q }.
Definition set_x (v : Q) (e : t) : t :=
  {| x := v; y := y e; sprite := sprite e; speed := speed e |}.
Definition set_y (v : Q) (e : t) : t :=
  {| x := x e; y := v; sprite := sprite e; speed := speed e |}.
Definition set_speed (v : Q) (e : t) : t :=
  {| x := x e; y := y e; sprite := sprite e; speed := v |}.
End Enemy.

Module Player.
Record t : Type := mk { x : Q; y : Q; sprite : string }.
Definition set_x (v : Q) (p : t) : t :=
  {| x := v; y := y p; sprite := sprite p |}.
Definition set_y (v : Q) (p : t) : t :=
  {| x := x p; y := v; sprite := sprite p |}.
End Player.

Module Stats.
Record t : Type := mk { streakX : Q; streakY : Q; streak : Z }.
Definition incrementStreak (s : t) : t :=
  {| streakX := streakX s; streakY := streakY s;
     streak := (streak s + 1)%Z |}.
Definition resetStreak (s : t) : t :=
  {| streakX := streakX s; streakY := streakY s; streak := 0%Z |}.
End Stats.

(** The global objects the functions of app.js read and mutate. *)
Record Game : Type := mkGame {
  player : Player.t;
  allEnemies : list Enemy.t;
  stats : Stats.t
}.

Definition with_player (p : Player.t) (g : Game) : Game :=
  {| player := p; allEnemies := allEnemies g; stats := stats g |}.

Definition with_stats (s : Stats.t) (g : Game) : Game :=
  {| player := player g; allEnemies := allEnemies g; stats := s |}.

(** *** Math.random

    The generator is a sequence of draws and a cursor; every call of
    [Math.random()] returns the draw under the cursor and advances it.  The
    draws of JavaScript lie in [0, 1): see [fair]. *)
Record Rng : Type := mkRng { draws : nat -> Q; cursor : nat }.

Definition fair (r : Rng) : Prop := forall n, 0 <= draws r n /\ draws r n < 1.

(** A generator whose every draw is one half. *)
Definition half : Rng := {| draws := fun _ => 1 # 2; cursor := 0 |}.

(** The largest double below 1, and a generator whose every draw is that
    number. *)
Definition below_one : Q := 1 - (1 # 2 ^ 53).

Definition high : Rng := {| draws := fun _ => below_one; cursor := 0 |}.

(** Computations that consume random draws. *)
Definition Rand (A : Type) : Type := Rng -> A * Rng.

Definition ret {A} (a : A) : Rand A := fun r => (a, r).

Definition bind {A B} (m : Rand A) (k : A -> Rand B) : Rand B :=
  fun r => let (a, r') := m r in k a r'.

Notation "x <- m ;; k" := (bind m (fun x => k))
  (at level 61, m at next level, right associativity).

Definition Math_random : Rand Q :=
  fun r => (draws r (cursor r), {| draws := draws r; cursor := S (cursor r) |}).

(** [Math.floor(Math.random() * (max - min) + min)]: the difference, the
    product and the sum are each rounded to a double. *)
Definition getRandomInt (min max : Z) : Rand Z :=
  u <- Math_random ;;
  ret (Qfloor
         (Double.round64
            (Double.round64 (u * Double.round64 (max - min)%Z) + min))).

(** *** checkCollision *)

Definition checkCollision (e : Enemy.t) (p : Player.t) : bool :=
  let eLeft := Enemy.x e in
  let eRight := Enemy.x e + COLWIDTH in
  let eTop := Enemy.y e + 65 in
  let eBottom := Enemy.y e + ROWHEIGHT - 30 in
  let pLeft := Player.x p + 30 in
  let pRight := Player.x p + COLWIDTH - 30 in
  let pTop := Player.y p + 45 in
  let pBottom := Player.y p + ROWHEIGHT in
  negb (Qgtb pLeft eRight || Qltb pRight eLeft
        || Qgtb pTop eBottom || Qltb pBottom eTop).

Section Globals.

(** The values at the top of app.js that size and tune the game. *)
Variables (numLanes numCols numEnemies : Z).
Variable baseEnemySpeed : Q.
Variable gameDifficulty : Z.

(** Always 1 top row (goal) and two bottom rows (player spawn / safe). *)
Definition numRows : Z := (numLanes + 3)%Z.

Definition canvasWidth : Z := (numCols * COLWIDTH)%Z.
Definition canvasHeight : Z := ((numRows * ROWHEIGHT) + TILETOP + TILEBOTTOM)%Z.

(** Player should start on the bottom row, middle column. *)
Definition playerStartCol : Z := Qfloor (numCols / 2).
Definition PlayerStartRow : Z := (numRows - 1)%Z.

(** **** Enemy *)

Definition setRandomValues (e : Enemy.t) : Rand Enemy.t :=
  i <- getRandomInt 1 numCols ;;
  let e := Enemy.set_x (i * (- COLWIDTH)%Z) e in
  j <- getRandomInt 1 (numLanes + 1) ;;
  let e := Enemy.set_y (j * ROWHEIGHT + dy) e in
  k <- getRandomInt 1 (gameDifficulty + 1) ;;
  ret (Enemy.set_speed (baseEnemySpeed + 50 * k) e).

Definition Enemy_update (dt : Q) (e : Enemy.t) : Rand Enemy.t :=
  if Qltb (Enemy.x e) (COLWIDTH * numCols)%Z
  then ret (Enemy.set_x (Enemy.x e + dt * Enemy.speed e) e)
  else setRandomValues e.

(** [new Enemy()] *)
Definition Enemy_new : Rand Enemy.t :=
  setRandomValues
    {| Enemy.x := 0; Enemy.y := 0; Enemy.sprite := "images/enemy-bug.png";
       Enemy.speed := 100 |}.

(** **** Player *)

Definition setInitialPosition (p : Player.t) : Player.t :=
  let p := Player.set_x (playerStartCol * COLWIDTH)%Z p in
  Player.set_y (PlayerStartRow * ROWHEIGHT + dy)%Z p.

(** [new Player()] *)
Definition Player_new : Player.t :=
  setInitialPosition
    {| Player.x := 0; Player.y := 0; Player.sprite := "images/char-boy.png" |}.

(** [new Stats(canvasWidth - 70, canvasHeight - 70)] *)
Definition Stats_new : Stats.t :=
  {| Stats.streakX := (canvasWidth - 70)%Z;
     Stats.streakY := (canvasHeight - 70)%Z;
     Stats.streak := 0 |}.

Definition getCurrentCol (p : Player.t) : Q := Player.x p / COLWIDTH.

Definition getCurrentRow (p : Player.t) : Q := (Player.y p - dy) / ROWHEIGHT.

(** The argument is what the key listener passes: one of the four strings
    for the arrow keys, [None] ([undefined]) for any other key. *)
Definition handleInput (direction : option string) (p : Player.t) : Player.t :=
  match direction with
  | None => p
  | Some d =>
    if String.eqb d "left" then
      if Qgtb (getCurrentCol p) 0
      then Player.set_x (Player.x p - COLWIDTH) p else p
    else if String.eqb d "right" then
      if Qltb (getCurrentCol p) (numCols - 1)%Z
      then Player.set_x (Player.x p + COLWIDTH) p else p
    else if String.eqb d "up" then
      if Qgtb (getCurrentRow p) 0
      then Player.set_y (Player.y p - ROWHEIGHT) p else p
    else if String.eqb d "down" then
      if Qltb (getCurrentRow p) (numRows - 1)%Z
      then Player.set_y (Player.y p + ROWHEIGHT) p else p
    else p
  end.

(** The [keyup] listener. *)
Definition allowedKeys (keyCode : Z) : option string :=
  if (keyCode =? 37)%Z then Some "left"%string
  else if (keyCode =? 38)%Z then Some "up"%string
  else if (keyCode =? 39)%Z then Some "right"%string
  else if (keyCode =? 40)%Z then Some "down"%string
  else None.

Definition onKeyup (keyCode : Z) (g : Game) : Game :=
  with_player (handleInput (allowedKeys keyCode) (player g)) g.

(** Global win function. *)
Definition win (g : Game) : Game :=
  let g := with_stats (Stats.incrementStreak (stats g)) g in
  with_player (setInitialPosition (player g)) g.

Definition Player_update (g : Game) : Game :=
  if Qltb (getCurrentRow (player g)) 1 then win g else g.

(** Player death handler. *)
Definition die (g : Game) : Game :=
  let g := with_stats (Stats.resetStreak (stats g)) g in
  with_player (setInitialPosition (player g)) g.

(** [allEnemies.forEach]: the callback runs once per element, in index
    order, each time against the player object as the previous iterations
    left it. *)
Definition checkCollisions (g : Game) : Game :=
  fold_left
    (fun g enemy => if checkCollision enemy (player g) then die g else g)
    (allEnemies g) g.

End Globals.

End App.

(** ** Scaled coordinates of an entity (CONFIG-based variant of app.js) *)

Module Scaled.

Local Open Scope Q_scope.

Record Entity : Type := mkEntity { x : Q; y : Q }.

Definition scaledX (cfg : CONFIG.Settings) (e : Entity) : Q :=
  let scale := CONFIG.getScalingFactor cfg in
  x e * scale.

Definition scaledY (cfg : CONFIG.Settings) (e : Entity) : Q :=
  let scale := CONFIG.getScalingFactor cfg in
  y e * scale.

End Scaled.

(** ** Vocabulary of the specification *)

Module Geometry.
Import App.

Local Open Scope Q_scope.
Local Coercion inject_Z : Z >-> Q.

(** A closed box [left, right] x [top, bottom], as the set of its points. *)
Record Box : Type := mkBox { left : Q; right : Q; top : Q; bottom : Q }.

Definition contains (b : Box) (qx qy : Q) : Prop :=
  (left b <= qx /\ qx <= right b) /\ (top b <= qy /\ qy <= bottom b).

Definition intersect (a b : Box) : Prop :=
  exists qx qy, contains a qx qy /\ contains b qx qy.

(** The projections of the two boxes on an axis share a point. *)
Definition meet_on_x (a b : Box) : Prop :=
  exists qx, (left a <= qx /\ qx <= right a) /\ (left b <= qx /\ qx <= right b).


Definition disjoint_on_x (a b : Box) : Prop := ~ meet_on_x a b.


Definition proper (b : Box) : Prop := left b <= right b /\ top b <= bottom b.

(** The inset rule, bound to the type of the entity. *)
Definition enemyBox (e : Enemy.t) : Box :=
  {| left := Enemy.x e; right := Enemy.x e + COLWIDTH;
     top := Enemy.y e + 65; bottom := Enemy.y e + ROWHEIGHT - 30 |}.

Definition playerBox (p : Player.t) : Box :=
  {| left := Player.x p + 30; right := Player.x p + COLWIDTH - 30;
     top := Player.y p + 45; bottom := Player.y p + ROWHEIGHT |}.

(** The comparison of [checkCollision], on two boxes given in some order. *)
Definition collides (a b : Box) : bool :=
  negb (Qgtb (left b) (right a) || Qltb (right b) (left a)
        || Qgtb (top b) (bottom a) || Qltb (bottom b) (top a)).

End Geometry.

Module Trace.
Import App.

(** What one run of [checkCollisions] does, call by call. *)
Inductive Event : Type :=
| Tested (enemy : Enemy.t) (hit : bool)
| Died.

Section Globals.
Variables (numLanes numCols : Z).

(** The loop of [checkCollisions], recording next to the state each call of
    [checkCollision] with its verdict and each call of [player.die]. *)
Fixpoint forEach_log (enemies : list Enemy.t) (g : Game)
  : list Event * Game :=
  match enemies with
  | [] => ([], g)
  | enemy :: enemies =>
      if checkCollision enemy (player g)
      then let (log, g') := forEach_log enemies (die numLanes numCols g) in
           (Tested enemy true :: Died :: log, g')
      else let (log, g') := forEach_log enemies g in
           (Tested enemy false :: log, g')
  end.

Definition checkCollisions_log (g : Game) : list Event * Game :=
  forEach_log (allEnemies g) g.

(** The loop of [checkCollisions] over a list of enemies, from the state
    [g]. *)
Definition forEach (enemies : list Enemy.t) (g : Game) : Game :=
  fold_left
    (fun g enemy =>
       if checkCollision enemy (player g) then die numLanes numCols g else g)
    enemies g.

End Globals.

(** The enemies tested, in the order of the calls. *)
Fixpoint tested (log : list Event) : list Enemy.t :=
  match log with
  | [] => []
  | Tested e _ :: log => e :: tested log
  | Died :: log => tested log
  end.

(** The verdicts recorded, each with the enemy tested, in the order of the
    calls. *)
Fixpoint verdicts (log : list Event) : list (Enemy.t * bool) :=
  match log with
  | [] => []
  | Tested e hit :: log => (e, hit) :: verdicts log
  | Died :: log => verdicts log
  end.

Fixpoint hits (log : list Event) : nat :=
  match log with
  | [] => O
  | Tested _ true :: log => S (hits log)
  | _ :: log => hits log
  end.

Fixpoint deaths (log : list Event) : nat :=
  match log with
  | [] => O
  | Died :: log => S (deaths log)
  | _ :: log => deaths log
  end.

(** Every hit is followed at once by a death, and there is no other death. *)
Fixpoint hit_then_die (log : list Event) : bool :=
  match log with
  | [] => true
  | Tested _ true :: Died :: log => hit_then_die log
  | Tested _ false :: log => hit_then_die log
  | _ => false
  end.

End Trace.

Module Grid.
Import App.

Local Open Scope Q_scope.
Local Coercion inject_Z : Z >-> Q.

Section Globals.
Variables (numLanes numCols : Z).

(** The player stands on tile (c, r) of the grid. *)
Definition on_tile (c r : Z) (p : Player.t) : Prop :=
  Player.x p == (c * COLWIDTH)%Z /\ Player.y p == (r * ROWHEIGHT + dy)%Z.

Definition on_grid (p : Player.t) : Prop :=
  exists c r : Z,
    (0 <= c <= numCols - 1)%Z /\ (0 <= r <= numRows numLanes - 1)%Z /\
    on_tile c r p.

(** What can happen to the player's position. *)
Inductive Action : Type :=
| Input (direction : option string)
| Reset.

Definition act (p : Player.t) (a : Action) : Player.t :=
  match a with
  | Input d => handleInput numLanes numCols d p
  | Reset => setInitialPosition numLanes numCols p
  end.

Definition play (acts : list Action) (p : Player.t) : Player.t :=
  fold_left act acts (setInitialPosition numLanes numCols p).

End Globals.
End Grid.

(** ** Which setting a CONFIG command writes *)

Module ConfigOps.
Import CONFIG ConfigRun.

(** The setting a command may write: one of the four tunables, or the
    scale ([None]). *)
Definition target (c : Command) : option Tunable :=
  match c with
  | Increment t => Some t
  | Decrement t => Some t
  | SetScalingFactor _ => None
  end.

(** The bounds the increment and decrement setters keep. *)
Definition within_bounds (s : Settings) : Prop :=
  forall t : Tunable, lower t <= value t s <= upper t.

End ConfigOps.

(** ** The game as app.js sets it up and drives it *)

Module Play.
Import App.

Local Open Scope Q_scope.
Local Coercion inject_Z : Z >-> Q.

Section Globals.
Variables (numLanes numCols numEnemies : Z).
Variable baseEnemySpeed : Q.
Variable gameDifficulty : Z.

(** [for (var i = 0; i < numEnemies; i++) allEnemies.push(new Enemy())],
    with [n] iterations left and [acc] pushed so far. *)
Fixpoint push_enemies (n : nat) (acc : list Enemy.t) : Rand (list Enemy.t) :=
  match n with
  | O => ret acc
  | S n =>
      e <- Enemy_new numLanes numCols baseEnemySpeed gameDifficulty ;;
      push_enemies n (acc ++ [e])
  end.

(** The objects app.js instantiates when it is loaded: the player, the
    enemies, the stats. *)
Definition Game_new : Rand Game :=
  let p := Player_new numLanes numCols in
  es <- push_enemies (Z.to_nat numEnemies) [] ;;
  ret {| player := p; allEnemies := es;
         stats := Stats_new numLanes numCols |}.

(** One enemy through the ticks of durations [dts]. *)
Fixpoint Enemy_updates (dts : list Q) (e : Enemy.t) : Rand Enemy.t :=
  match dts with
  | [] => ret e
  | dt :: dts =>
      e' <- Enemy_update numLanes numCols baseEnemySpeed gameDifficulty dt e ;;
      Enemy_updates dts e'
  end.

(** An enemy in one of the lanes 1 .. numLanes. *)
Definition in_lane (e : Enemy.t) : Prop :=
  exists j : Z, (1 <= j <= numLanes)%Z /\ Enemy.y e == (j * ROWHEIGHT + dy)%Z.

(** An enemy at one of the speeds baseEnemySpeed + 50 k, 1 <= k <=
    gameDifficulty. *)
Definition quantized (e : Enemy.t) : Prop :=
  exists k : Z,
    (1 <= k <= gameDifficulty)%Z /\ Enemy.speed e == baseEnemySpeed + 50 * k.

(** An enemy as [setRandomValues] leaves it: in a lane, at a quantized
    speed, left of the field. *)
Definition fresh (e : Enemy.t) : Prop :=
  in_lane e /\ quantized e /\ Enemy.x e < 0.

(** What the functions of app.js do to the global objects between two
    frames: a key is released, the player is updated, the collisions are
    checked. *)
Inductive Step : Type :=
| Key (keyCode : Z)
| UpdatePlayer
| Collide.

Definition step (g : Game) (s : Step) : Game :=
  match s with
  | Key keyCode => onKeyup numLanes numCols keyCode g
  | UpdatePlayer => Player_update numLanes numCols g
  | Collide => checkCollisions numLanes numCols g
  end.

Definition steps (ss : list Step) (g : Game) : Game := fold_left step ss g.

(** The two transitions of the streak. *)
Inductive Transition : Type := Success | Failure.

Definition transition (g : Game) (t : Transition) : Game :=
  match t with
  | Success => win numLanes numCols g
  | Failure => die numLanes numCols g
  end.

Definition transitions (ts : list Transition) (g : Game) : Game :=
  fold_left transition ts g.

(** The tile next to (c, r) in a direction, or (c, r) itself at the edge of
    the grid and for anything that is not a direction. *)
Definition neighbour (direction : option string) (c r : Z) : Z * Z :=
  match direction with
  | None => (c, r)
  | Some d =>
    if String.eqb d "left" then ((if 0 <? c then c - 1 else c)%Z, r)
    else if String.eqb d "right"
      then ((if c <? numCols - 1 then c + 1 else c)%Z, r)
    else if String.eqb d "up" then (c, (if 0 <? r then r - 1 else r)%Z)
    else if String.eqb d "down"
      then (c, (if r <? numRows numLanes - 1 then r + 1 else r)%Z)
    else (c, r)
  end.

End Globals.
End Play.

(** ** The CONFIG-based variant of app.js: canvas scaling and scoreboard *)

Module Variant.
Import CONFIG.

Local Open Scope Q_scope.





(** A [TextEntity]: position, label, value and display options. *)
Record TextEntity : Type := mkTextEntity {
  tx : Q;
  ty : Q;
  label : string;
  value : Z;
  displayOptions : list (string * string)
}.

Definition incrementValue (t : TextEntity) : TextEntity :=
  {| tx := tx t; ty := ty t; label := label t; value := (value t + 1)%Z;
     displayOptions := displayOptions t |}.

Definition resetValue (t : TextEntity) : TextEntity :=
  {| tx := tx t; ty := ty t; label := label t; value := 0%Z;
     displayOptions := displayOptions t |}.

(** The globals [player], [streak], [deaths] and [wins], and the CONFIG
    object the player reads its start position from. *)
Record World : Type := mkWorld {
  config : Settings;
  player : App.Player.t;
  streak : TextEntity;
  deaths : TextEntity;
  wins : TextEntity
}.

Definition setInitialPosition (cfg : Settings) (p : App.Player.t)
  : App.Player.t :=
  let p :=
    App.Player.set_x
      (inject_Z (getPlayerStartCol cfg * getNativeColWidth cfg)) p in
  App.Player.set_y
    (inject_Z (getPlayerStartRow cfg * getNativeRowHeight cfg
               + getNativeDY cfg)) p.

(** [Player.prototype.die] *)
Definition die (w : World) : World :=
  {| config := config w;
     player := setInitialPosition (config w) (player w);
     streak := resetValue (streak w);
     deaths := incrementValue (deaths w);
     wins := wins w |}.

(** [Player.prototype.win] *)
Definition win (w : World) : World :=
  {| config := config w;
     player := setInitialPosition (config w) (player w);
     streak := incrementValue (streak w);
     deaths := deaths w;
     wins := incrementValue (wins w) |}.

Inductive Outcome : Type := Won | Died.

Definition outcome (w : World) (o : Outcome) : World :=
  match o with
  | Won => win w
  | Died => die w
  end.

Definition outcomes (os : list Outcome) (w : World) : World :=
  fold_left outcome os w.

Definition is_won (o : Outcome) : bool :=
  match o with Won => true | Died => false end.

(** How many of the outcomes are successes, how many failures. *)
Definition successes (os : list Outcome) : Z :=
  Z.of_nat (List.length (filter is_won os)).

Definition failures (os : list Outcome) : Z :=
  Z.of_nat (List.length (filter (fun o => negb (is_won o)) os)).

End Variant.

(** * Properties *)

(** ** Boolean comparisons on rationals *)

Lemma Qltb_lt (a b : Q) : Qltb a b = true <-> (a < b)%Q.
Proof.
  unfold Qltb. rewrite negb_true_iff, <- not_true_iff_false, Qle_bool_iff.
  split; [apply Qnot_le_lt | apply Qlt_not_le].
Qed.

Lemma Qltb_ge (a b : Q) : Qltb a b = false <-> (b <= a)%Q.
Proof.
  unfold Qltb. rewrite negb_false_iff. apply Qle_bool_iff.
Qed.

Lemma Qgtb_gt (a b : Q) : Qgtb a b = true <-> (b < a)%Q.
Proof. apply Qltb_lt. Qed.

Lemma Qgtb_le (a b : Q) : Qgtb a b = false <-> (a <= b)%Q.
Proof. apply Qltb_ge. Qed.

(** ** Rounding to a double *)

Module DoubleFacts.
Import Double.

Local Open Scope Q_scope.

Lemma two_pos (k : Z) : 0 < 2 ^ k.
Proof. apply Qpower_0_lt. reflexivity. Qed.

Lemma two_succ (k : Z) : 2 ^ (k + 1) == 2 * 2 ^ k.
Proof. rewrite Qpower_plus by discriminate. rewrite Qpower_1_r. ring. Qed.

Lemma two_pred (k : Z) : 2 * 2 ^ (k - 1) == 2 ^ k.
Proof.
  rewrite <- two_succ. replace (k - 1 + 1)%Z with k by lia. reflexivity.
Qed.

Lemma two_log2 (a : Z) :
  (0 < a)%Z ->
  2 ^ Z.log2 a <= inject_Z a /\ inject_Z a < 2 * 2 ^ Z.log2 a.
Proof.
  intros H. destruct (Z.log2_spec a H) as [H1 H2].
  pose proof (Z.log2_nonneg a) as Hn.
  rewrite <- two_succ.
  change 2 with (inject_Z 2).
  rewrite <- !Zpower_Qpower by lia.
  rewrite <- Zle_Qle, <- Zlt_Qlt. unfold Z.succ in H2. split; assumption.
Qed.

(** The exponent of a positive number is that of its binade. *)
Lemma exponent_spec (x : Q) :
  0 < x -> 2 ^ exponent x <= x /\ x < 2 ^ (exponent x + 1).
Proof.
  intros Hx. unfold exponent.
  destruct x as [a b]. cbn [Qnum Qden].
  assert (Ha : (0 < a)%Z).
  { unfold Qlt in Hx. cbn in Hx. lia. }
  destruct (two_log2 a Ha) as [A1 A2].
  destruct (two_log2 (Z.pos b) eq_refl) as [B1 B2].
  set (la := Z.log2 a) in *. set (lb := Z.log2 (Z.pos b)) in *.
  pose proof (two_pos la) as Hp. pose proof (two_pos lb) as Hr.
  assert (Hb : 0 < inject_Z (Z.pos b)) by reflexivity.
  assert (Hq : (a # b) * inject_Z (Z.pos b) == inject_Z a).
  { rewrite (Qmake_Qdiv a b). field. lra. }
  assert (He : 2 ^ (la - lb) * 2 ^ lb == 2 ^ la).
  { rewrite <- Qpower_plus by discriminate.
    replace (la - lb + lb)%Z with la by lia. reflexivity. }
  destruct (Qle_bool (2 ^ (la - lb)) (a # b)) eqn:E.
  - apply Qle_bool_iff in E. split; [exact E |].
    rewrite two_succ. nra.
  - assert (E' : a # b < 2 ^ (la - lb)).
    { apply Qnot_le_lt. intros H. apply Qle_bool_iff in H. congruence. }
    replace (la - lb - 1 + 1)%Z with (la - lb)%Z by lia.
    split; [| exact E'].
    pose proof (two_pred (la - lb)) as Hh.
    pose proof (two_pos (la - lb - 1)).
    nra.
Qed.

Lemma rne_floor (q : Q) : (Qfloor q <= rne q <= Qfloor q + 1)%Z.
Proof.
  unfold rne. destruct (Qcompare _ _); [destruct (Z.even _) | |]; lia.
Qed.

Lemma rne_le (q : Q) (m : Z) : q <= inject_Z m -> (rne q <= m)%Z.
Proof.
  intros H. pose proof (Qfloor_le q) as Hf.
  assert (Hfm : (Qfloor q <= m)%Z).
  { rewrite <- (Qfloor_Z m). apply Qfloor_resp_le, H. }
  destruct (Z.eq_dec (Qfloor q) m) as [E | E].
  - unfold rne. rewrite E.
    assert (Hlt : q - inject_Z m < 1 # 2) by lra.
    rewrite Qlt_alt in Hlt. rewrite Hlt. reflexivity.
  - pose proof (rne_floor q). lia.
Qed.

Lemma rne_ge (q : Q) (m : Z) : inject_Z m <= q -> (m <= rne q)%Z.
Proof.
  intros H.
  assert (Hfm : (m <= Qfloor q)%Z).
  { rewrite <- (Qfloor_Z m). apply Qfloor_resp_le, H. }
  pose proof (rne_floor q). lia.
Qed.

(** [rne] is within one half of its argument, and [round64] within half an
    ulp. *)
Lemma rne_nearest (q : Q) : Qabs (inject_Z (rne q) - q) <= 1 # 2.
Proof.
  pose proof (Qfloor_le q) as Hlo. pose proof (Qlt_floor q) as Hhi.
  rewrite inject_Z_plus in Hhi. change (inject_Z 1) with 1 in Hhi.
  apply Qabs_Qle_condition. unfold rne.
  destruct (Qcompare (q - inject_Z (Qfloor q)) (1 # 2)) eqn:E.
  - apply Qeq_alt in E.
    destruct (Z.even (Qfloor q)); rewrite ?inject_Z_plus;
      change (inject_Z 1) with 1; split; lra.
  - apply Qlt_alt in E. split; lra.
  - apply Qgt_alt in E. rewrite inject_Z_plus. change (inject_Z 1) with 1.
    split; lra.
Qed.

Lemma ulp_pos (x : Q) : 0 < ulp x.
Proof. apply two_pos. Qed.

Lemma round64_nearest (x : Q) : Qabs (round64 x - x) <= ulp x * (1 # 2).
Proof.
  pose proof (ulp_pos x) as Hu. unfold round64.
  destruct (Qeq_bool x 0) eqn:E.
  - apply Qeq_bool_iff in E. apply Qabs_Qle_condition. split; lra.
  - pose proof (rne_nearest (x / ulp x)) as H.
    apply Qabs_Qle_condition in H. apply Qabs_Qle_condition.
    assert (Hq : x / ulp x * ulp x == x) by (field; lra).
    set (q := x / ulp x) in *. set (n := inject_Z (rne q)) in *.
    split; nra.
Qed.

(** Doubles as the IEEE encoding gives them: 0.1, 1/3, the ties at 2^53 + 1
    and 2^53 + 3, the largest double below 1, and two ties among the
    subnormal numbers. *)
Example round64_known_values :
  round64 (1 # 10) == 3602879701896397 # 2 ^ 55 /\
  round64 (1 # 3) == 6004799503160661 # 2 ^ 54 /\
  round64 (inject_Z (2 ^ 53 + 1)) == inject_Z (2 ^ 53) /\
  round64 (inject_Z (2 ^ 53 + 3)) == inject_Z (2 ^ 53 + 4) /\
  round64 (1 - (1 # 2 ^ 53)) == 1 - (1 # 2 ^ 53) /\
  round64 (1 - (1 # 2 ^ 54)) == 1 /\
  round64 (1 # 2 ^ 1075) == 0 /\
  round64 (3 # 2 ^ 1075) == 1 # 2 ^ 1073.
Proof. repeat split; vm_compute; reflexivity. Qed.

Lemma round64_nonneg (x : Q) : 0 <= x -> 0 <= round64 x.
Proof.
  intros H. unfold round64. destruct (Qeq_bool x 0); [lra |].
  pose proof (ulp_pos x) as Hu.
  assert (Hq : inject_Z 0 <= x / ulp x).
  { apply Qle_shift_div_l; [exact Hu |]. change (inject_Z 0) with 0. lra. }
  apply rne_ge in Hq. rewrite Zle_Qle in Hq. change (inject_Z 0) with 0 in Hq.
  nra.
Qed.

Lemma two_52 : inject_Z (2 ^ 52) == 2 ^ 52.
Proof. reflexivity. Qed.

(** Scaling by the ulp and back. *)
Lemma ulp_scale (x : Q) :
  let ee := Z.max (exponent (Qabs x)) emin in
  (ee <= 52)%Z ->
  ulp x * inject_Z (2 ^ (52 - ee)) == 1.
Proof.
  intros ee H. unfold ulp. fold ee.
  rewrite (Zpower_Qpower 2 (52 - ee)) by lia.
  change (inject_Z 2) with 2.
  rewrite <- Qpower_plus by discriminate.
  replace (ee - 52 + (52 - ee))%Z with 0%Z by lia. reflexivity.
Qed.

Lemma positive_exponent (x : Q) :
  0 < x -> 2 ^ exponent (Qabs x) <= x.
Proof.
  intros H.
  assert (Ha : Qabs x == x) by (apply Qabs_pos; lra).
  assert (Hp : 0 < Qabs x) by lra.
  destruct (exponent_spec (Qabs x) Hp) as [H1 _]. lra.
Qed.

Lemma nonzero_positive (x : Q) : 0 <= x -> Qeq_bool x 0 = false -> 0 < x.
Proof.
  intros H E. apply Qeq_bool_neq in E.
  destruct (Qlt_le_dec 0 x) as [Hl | Hl]; [exact Hl |].
  exfalso. apply E. lra.
Qed.

(** Rounding does not cross an integer of at most 53 bits. *)
Lemma round64_le_int (x : Q) (n : Z) :
  0 <= x -> x <= inject_Z n -> (n <= 2 ^ 52)%Z -> round64 x <= inject_Z n.
Proof.
  intros H0 Hn Hb. unfold round64.
  destruct (Qeq_bool x 0) eqn:E; [lra |].
  pose proof (nonzero_positive x H0 E) as Hx.
  pose proof (positive_exponent x Hx) as He.
  pose proof (ulp_pos x) as Hu.
  assert (Hn52 : inject_Z n <= 2 ^ 52).
  { rewrite <- two_52, <- Zle_Qle. exact Hb. }
  assert (Hee : (Z.max (exponent (Qabs x)) emin <= 52)%Z).
  { apply Z.max_lub; [| unfold emin; lia].
    apply (Qpower_le_compat_l_inv 2); [lra | reflexivity]. }
  pose proof (ulp_scale x Hee) as Hs.
  set (k := (52 - Z.max (exponent (Qabs x)) emin)%Z) in *.
  assert (Hq : x / ulp x <= inject_Z (n * 2 ^ k)).
  { apply Qle_shift_div_r; [exact Hu |]. rewrite inject_Z_mult. nra. }
  apply rne_le in Hq. rewrite Zle_Qle, inject_Z_mult in Hq.
  assert (Hk : 0 < inject_Z (2 ^ k)) by nra.
  nra.
Qed.

Lemma round64_ge_int (x : Q) (n : Z) :
  (0 <= n <= 2 ^ 52)%Z -> inject_Z n <= x -> inject_Z n <= round64 x.
Proof.
  intros [Hn0 Hb] Hn. unfold round64.
  assert (Hn0' : 0 <= inject_Z n)
    by (change 0 with (inject_Z 0); rewrite <- Zle_Qle; exact Hn0).
  destruct (Qeq_bool x 0) eqn:E.
  { apply Qeq_bool_iff in E. lra. }
  assert (H0 : 0 <= x) by lra.
  pose proof (nonzero_positive x H0 E) as Hx.
  pose proof (positive_exponent x Hx) as He.
  pose proof (ulp_pos x) as Hu.
  assert (Hn52 : inject_Z n <= 2 ^ 52).
  { rewrite <- two_52, <- Zle_Qle. exact Hb. }
  destruct (Z_le_gt_dec (Z.max (exponent (Qabs x)) emin) 52) as [Hee | Hee].
  - pose proof (ulp_scale x Hee) as Hs.
    set (k := (52 - Z.max (exponent (Qabs x)) emin)%Z) in *.
    assert (Hq : inject_Z (n * 2 ^ k) <= x / ulp x).
    { apply Qle_shift_div_l; [exact Hu |]. rewrite inject_Z_mult. nra. }
    apply rne_ge in Hq. rewrite Zle_Qle, inject_Z_mult in Hq.
    assert (Hk : 0 < inject_Z (2 ^ k)) by nra.
    nra.
  - assert (Hmax : Z.max (exponent (Qabs x)) emin = exponent (Qabs x))
      by (unfold emin in *; lia).
    unfold ulp in *. rewrite Hmax in *.
    set (e := exponent (Qabs x)) in *.
    assert (Hsplit : 2 ^ 52 * 2 ^ (e - 52) == 2 ^ e).
    { rewrite <- Qpower_plus by discriminate.
      replace (52 + (e - 52))%Z with e by lia. reflexivity. }
    assert (Hbig : 2 ^ 52 <= 2 ^ e).
    { apply Qpower_le_compat_l; [lia | discriminate]. }
    assert (Hq : inject_Z (2 ^ 52) <= x / 2 ^ (e - 52)).
    { apply Qle_shift_div_l; [exact Hu |]. rewrite two_52. lra. }
    apply rne_ge in Hq. rewrite Zle_Qle, two_52 in Hq.
    nra.
Qed.

Lemma round64_int (n : Z) :
  (0 <= n <= 2 ^ 52)%Z -> round64 (inject_Z n) == inject_Z n.
Proof.
  intros H. apply Qle_antisym.
  - apply round64_le_int; [| apply Qle_refl | lia].
    change 0 with (inject_Z 0). rewrite <- Zle_Qle. lia.
  - apply round64_ge_int; [exact H | apply Qle_refl].
Qed.

End DoubleFacts.

(** ** The CONFIG object *)

Module ConfigFacts.
Import CONFIG ConfigRun.

(** No command writes the fields of the object literal other than [scale]. *)
Lemma exec_tileset (s : Settings) (c : Command) :
  (colWidth (exec s c), rowHeight (exec s c), tileTop (exec s c),
   tileBottom (exec s c), tileHeight (exec s c), dy (exec s c))
  = (colWidth s, rowHeight s, tileTop s, tileBottom s, tileHeight s, dy s).
Proof.
  destruct c as [t | t | v]; [destruct t | destruct t | ]; cbn;
    unfold incrementGameDifficulty, incrementNumEnemies, incrementNumLanes,
      incrementNumCols, decrementGameDifficulty, decrementNumEnemies,
      decrementNumLanes, decrementNumCols;
    try match goal with |- context [if ?b then _ else _] => destruct b end;
    reflexivity.
Qed.

Lemma run_tileset (cs : list Command) (s : Settings) :
  (colWidth (run cs s), rowHeight (run cs s), tileTop (run cs s),
   tileBottom (run cs s), tileHeight (run cs s), dy (run cs s))
  = (colWidth s, rowHeight s, tileTop s, tileBottom s, tileHeight s, dy s).
Proof.
  unfold run. revert s.
  induction cs as [| c cs IH]; intros s; cbn [fold_left].
  - reflexivity.
  - rewrite IH. apply exec_tileset.
Qed.

Lemma floor_half (n : Z) : Qfloor (inject_Z n / 2) = n / 2.
Proof. symmetry. apply (Zdiv_Qdiv n 2). Qed.

(** C6. In every state reached from [init] by any sequence of increment,
    decrement and scale-setter calls, the derived getters are computed from
    the settings as they are now: rows = lanes + 3, start column =
    floor(columns / 2), start row = rows - 1, native canvas width =
    columns x column width, native canvas height = rows x row height +
    tile top + tile bottom, the tile sizes being those of the literal. *)
Theorem derived_getters_live
  (nLanes nCols nEnemies : Z) (baseSpeed : Q) (difficulty : Z)
  (cs : list Command) :
  let s := run cs (init nLanes nCols nEnemies baseSpeed difficulty settings0) in
  getNumRows s = getNumLanes s + 3 /\
  getPlayerStartCol s = getNumCols s / 2 /\
  (2 * getPlayerStartCol s <= getNumCols s < 2 * getPlayerStartCol s + 2) /\
  getPlayerStartRow s = getNumRows s - 1 /\
  getNativeCanvasWidth s = getNumCols s * getNativeColWidth s /\
  getNativeCanvasHeight s
    = getNumRows s * getNativeRowHeight s + tileTop s + tileBottom s /\
  (getNativeColWidth s, getNativeRowHeight s, tileTop s, tileBottom s)
    = (101, 83, 51, 37).
Proof.
  intros s.
  assert (Hfloor : getPlayerStartCol s = getNumCols s / 2)
    by apply floor_half.
  repeat split; try reflexivity; try exact Hfloor.
  - rewrite Hfloor. pose proof (Z.mul_div_le (getNumCols s) 2). lia.
  - rewrite Hfloor.
    pose proof (Z.mul_succ_div_gt (getNumCols s) 2). lia.
  - pose proof (run_tileset cs
      (init nLanes nCols nEnemies baseSpeed difficulty settings0)) as H.
    fold s in H. cbn in H. unfold getNativeColWidth, getNativeRowHeight.
    congruence.
Qed.

(** The getters follow a setter at once: one more lane is one more row and
    one more row height of canvas. *)
Lemma getters_follow_incrementNumLanes (s : Settings) :
  numLanes s < 10 ->
  let s' := snd (incrementNumLanes s) in
  getNumRows s' = getNumRows s + 1 /\
  getPlayerStartRow s' = getPlayerStartRow s + 1 /\
  getNativeCanvasHeight s' = getNativeCanvasHeight s + rowHeight s.
Proof.
  intros H. unfold incrementNumLanes.
  destruct (Z.ltb_spec (numLanes s) 10) as [_ | Hge]; [| lia].
  cbn. unfold getPlayerStartRow, getNativeCanvasHeight, getNumRows. cbn.
  repeat split; lia.
Qed.

(** C7, as amended.  Each of the eight setters either rejects the call or
    applies it.  It rejects when the setting has reached or passed the bound
    (not only when it equals it): the settings are left as they were and
    nothing is returned.  It applies when the setting is strictly inside the
    bound: that setting moves by one, every other field keeps its value, and
    the new value is returned. *)
Theorem setters_reject_or_step (t : Tunable) (s : Settings) :
  match increment t s with
  | (None, s') => upper t <= value t s /\ s' = s
  | (Some v, s') =>
      value t s < upper t /\ v = value t s + 1 /\ value t s' = v /\
      others t s' = others t s
  end /\
  match decrement t s with
  | (None, s') => value t s <= lower t /\ s' = s
  | (Some v, s') =>
      lower t < value t s /\ v = value t s - 1 /\ value t s' = v /\
      others t s' = others t s
  end.
Proof.
  destruct t; cbn [increment decrement value upper lower];
    unfold incrementGameDifficulty, incrementNumEnemies, incrementNumLanes,
      incrementNumCols, decrementGameDifficulty, decrementNumEnemies,
      decrementNumLanes, decrementNumCols;
    split;
    match goal with
    | |- context [?a <? ?b] => destruct (Z.ltb_spec a b)
    | |- context [?a >? ?b] =>
        rewrite (Z.gtb_ltb a b); destruct (Z.ltb_spec b a)
    end; cbn; repeat split; try reflexivity; lia.
Qed.

(** C7, the claim as written fails: with the difficulty set to 25 by [init]
    the setting is not at its bound of 20, yet [incrementGameDifficulty]
    leaves the settings alone and returns nothing. *)
Lemma increment_past_bound_rejected :
  let s := init 4 7 10 200 25 settings0 in
  value GameDifficulty s <> upper GameDifficulty /\
  increment GameDifficulty s = (None, s).
Proof. split; [discriminate | reflexivity]. Qed.

End ConfigFacts.

(** ** Native and scaled coordinates *)

Module ScalingFacts.
Import CONFIG.

Local Open Scope Q_scope.

(** C8. After [setScalingFactor v], whatever the settings were and whatever
    [v] is (positive or not): the call returns [v]; the column width, row
    height, vertical offset and canvas size are [v] times their native
    values; the scaled coordinates of an entity are [v] times its [x] and
    [y]; and the native getters return what they returned before the call,
    so they do not depend on [v]. *)
Theorem scaled_is_scale_times_native (st : Settings) (v : Q) :
  let st' := snd (setScalingFactor v st) in
  fst (setScalingFactor v st) = v /\
  getScalingFactor st' = v /\
  getColWidth st' == v * inject_Z (getNativeColWidth st') /\
  getRowHeight st' == v * inject_Z (getNativeRowHeight st') /\
  getDY st' == v * inject_Z (getNativeDY st') /\
  getCanvasWidth st' == v * inject_Z (getNativeCanvasWidth st') /\
  getCanvasHeight st' == v * inject_Z (getNativeCanvasHeight st') /\
  (forall e : Scaled.Entity,
      Scaled.scaledX st' e == v * Scaled.x e /\
      Scaled.scaledY st' e == v * Scaled.y e) /\
  (getNativeColWidth st', getNativeRowHeight st', getNativeDY st',
   getNativeCanvasWidth st', getNativeCanvasHeight st')
  = (getNativeColWidth st, getNativeRowHeight st, getNativeDY st,
     getNativeCanvasWidth st, getNativeCanvasHeight st).
Proof.
  cbn zeta. unfold setScalingFactor. cbn [fst snd].
  repeat split; try reflexivity.
  - unfold Scaled.scaledX, getScalingFactor. cbn [scale set_scale]. ring.
  - unfold Scaled.scaledY, getScalingFactor. cbn [scale set_scale]. ring.
Qed.

(** Scaling and then dividing by a non-zero scale gives the native position
    back: the two frames determine each other. *)
Lemma scaled_round_trip (st : Settings) (v : Q) (e : Scaled.Entity) :
  ~ v == 0 ->
  let st' := snd (setScalingFactor v st) in
  Scaled.scaledX st' e / getScalingFactor st' == Scaled.x e /\
  Scaled.scaledY st' e / getScalingFactor st' == Scaled.y e.
Proof.
  intros Hv. unfold Scaled.scaledX, Scaled.scaledY, getScalingFactor,
    setScalingFactor. cbn [snd scale set_scale].
  split; field; exact Hv.
Qed.

End ScalingFacts.

(** ** Collision test *)

Module CollisionFacts.
Import App Geometry.

Local Open Scope Q_scope.
Local Coercion inject_Z : Z >-> Q.

(** Turns the boolean comparisons of a goal or hypothesis into inequalities. *)
Ltac unbool :=
  repeat first
    [ rewrite negb_true_iff | rewrite negb_false_iff
    | rewrite orb_false_iff | rewrite orb_true_iff
    | rewrite Qgtb_gt | rewrite Qgtb_le | rewrite Qltb_lt | rewrite Qltb_ge ].


Lemma collides_true (a b : Box) :
  collides a b = true <->
  left b <= right a /\ left a <= right b /\
  top b <= bottom a /\ top a <= bottom b.
Proof. unfold collides. unbool. tauto. Qed.


Lemma checkCollision_collides (e : Enemy.t) (p : Player.t) :
  checkCollision e p = collides (enemyBox e) (playerBox p).
Proof. reflexivity. Qed.

Lemma collides_sym (a b : Box) : collides a b = collides b a.
Proof.
  apply eq_true_iff_eq. rewrite !collides_true. tauto.
Qed.

(** For boxes that have points, the comparison is intersection. *)
Lemma collides_proper (a b : Box) :
  proper a -> proper b -> (collides a b = true <-> intersect a b).
Proof.
  intros [Hax Hay] [Hbx Hby]. rewrite collides_true. split.
  - intros (H1 & H2 & H3 & H4).
    exists (Qmax (left a) (left b)), (Qmax (top a) (top b)).
    unfold contains.
    repeat split;
      try apply Q.le_max_l; try apply Q.le_max_r;
      apply Q.max_lub; assumption.
  - intros (qx & qy & ((A1 & A2) & (A3 & A4)) & ((B1 & B2) & (B3 & B4))).
    repeat split; eapply Qle_trans; eassumption.
Qed.





(** C9. With the enemy's insets on the enemy and the player's insets on the
    player, the verdict does not depend on the order in which the two boxes
    are compared; [checkCollision] is that verdict. *)
Theorem collision_symmetric (e : Enemy.t) (p : Player.t) :
  checkCollision e p = collides (enemyBox e) (playerBox p) /\
  collides (enemyBox e) (playerBox p) = collides (playerBox p) (enemyBox e).
Proof.
  split; [apply checkCollision_collides | apply collides_sym].
Qed.

End CollisionFacts.

(** ** The player *)

Module PlayerFacts.
Import App Grid.

Local Open Scope Q_scope.
Local Coercion inject_Z : Z >-> Q.

Section Globals.
Variables (numLanes numCols : Z).

Lemma getCurrentCol_on_tile (c r : Z) (p : Player.t) :
  on_tile c r p -> getCurrentCol p == c.
Proof.
  intros [Hx _]. unfold getCurrentCol. rewrite Hx, inject_Z_mult.
  unfold COLWIDTH. field.
Qed.

Lemma getCurrentRow_on_tile (c r : Z) (p : Player.t) :
  on_tile c r p -> getCurrentRow p == r.
Proof.
  intros [_ Hy]. unfold getCurrentRow.
  rewrite Hy, inject_Z_plus, inject_Z_mult.
  unfold ROWHEIGHT, dy. field.
Qed.

Lemma Qgtb_Z (a b : Z) : Qgtb a b = (b <? a)%Z.
Proof.
  apply eq_true_iff_eq. rewrite Qgtb_gt, Z.ltb_lt, <- Zlt_Qlt. tauto.
Qed.

Lemma Qltb_Z (a b : Z) : Qltb a b = (a <? b)%Z.
Proof. apply (Qgtb_Z b a). Qed.

Lemma Qltb_compat (a a' b b' : Q) :
  a == a' -> b == b' -> Qltb a b = Qltb a' b'.
Proof.
  intros Ha Hb. apply eq_true_iff_eq. rewrite !Qltb_lt, Ha, Hb. tauto.
Qed.

Lemma col_gt_0 (c r : Z) (p : Player.t) :
  on_tile c r p -> Qgtb (getCurrentCol p) 0 = (0 <? c)%Z.
Proof.
  intros H. rewrite <- (Qgtb_Z c 0). unfold Qgtb.
  apply Qltb_compat; [reflexivity | apply (getCurrentCol_on_tile c r p H)].
Qed.

Lemma col_lt (c r n : Z) (p : Player.t) :
  on_tile c r p -> Qltb (getCurrentCol p) n = (c <? n)%Z.
Proof.
  intros H. rewrite <- (Qltb_Z c n).
  apply Qltb_compat; [apply (getCurrentCol_on_tile c r p H) | reflexivity].
Qed.

Lemma row_gt_0 (c r : Z) (p : Player.t) :
  on_tile c r p -> Qgtb (getCurrentRow p) 0 = (0 <? r)%Z.
Proof.
  intros H. rewrite <- (Qgtb_Z r 0). unfold Qgtb.
  apply Qltb_compat; [reflexivity | apply (getCurrentRow_on_tile c r p H)].
Qed.

Lemma row_lt (c r n : Z) (p : Player.t) :
  on_tile c r p -> Qltb (getCurrentRow p) n = (r <? n)%Z.
Proof.
  intros H. rewrite <- (Qltb_Z r n).
  apply Qltb_compat; [apply (getCurrentRow_on_tile c r p H) | reflexivity].
Qed.

(** One tile step from tile (c, r) lands on the neighbouring tile. *)
Lemma on_tile_left (c r : Z) (p : Player.t) :
  on_tile c r p -> on_tile (c - 1) r (Player.set_x (Player.x p - COLWIDTH) p).
Proof.
  intros [Hx Hy]. split; cbn; [| exact Hy].
  rewrite Hx, !inject_Z_mult. unfold Z.sub. rewrite inject_Z_plus. cbn. ring.
Qed.

Lemma on_tile_right (c r : Z) (p : Player.t) :
  on_tile c r p -> on_tile (c + 1) r (Player.set_x (Player.x p + COLWIDTH) p).
Proof.
  intros [Hx Hy]. split; cbn; [| exact Hy].
  rewrite Hx, !inject_Z_mult, inject_Z_plus. cbn. ring.
Qed.

Lemma on_tile_up (c r : Z) (p : Player.t) :
  on_tile c r p -> on_tile c (r - 1) (Player.set_y (Player.y p - ROWHEIGHT) p).
Proof.
  intros [Hx Hy]. split; cbn; [exact Hx |].
  rewrite Hy, !inject_Z_plus, !inject_Z_mult. unfold Z.sub.
  rewrite inject_Z_plus. cbn. ring.
Qed.

Lemma on_tile_down (c r : Z) (p : Player.t) :
  on_tile c r p -> on_tile c (r + 1) (Player.set_y (Player.y p + ROWHEIGHT) p).
Proof.
  intros [Hx Hy]. split; cbn; [exact Hx |].
  rewrite Hy, !inject_Z_plus, !inject_Z_mult, inject_Z_plus. cbn. ring.
Qed.

Lemma on_tile_start (p : Player.t) :
  on_tile (playerStartCol numCols) (PlayerStartRow numLanes)
    (setInitialPosition numLanes numCols p).
Proof. split; reflexivity. Qed.

Lemma playerStartCol_half : playerStartCol numCols = (numCols / 2)%Z.
Proof. symmetry. apply (Zdiv_Qdiv numCols 2). Qed.

(** The start tile is a tile of the grid as soon as there is a column and a
    lane. *)
Lemma on_grid_start (p : Player.t) :
  (1 <= numCols)%Z -> (1 <= numLanes)%Z ->
  on_grid numLanes numCols (setInitialPosition numLanes numCols p).
Proof.
  intros Hc Hl.
  exists (playerStartCol numCols), (PlayerStartRow numLanes).
  split; [| split; [| apply on_tile_start]].
  - rewrite playerStartCol_half.
    pose proof (Z.mul_div_le numCols 2).
    pose proof (Z.mul_succ_div_gt numCols 2). lia.
  - unfold PlayerStartRow, numRows. lia.
Qed.

(** What [handleInput] does to a player standing on tile (c, r). *)
Lemma handleInput_on_tile (d : option string) (c r : Z) (p : Player.t) :
  on_tile c r p ->
  handleInput numLanes numCols d p =
  match d with
  | None => p
  | Some d =>
    if String.eqb d "left" then
      if (0 <? c)%Z then Player.set_x (Player.x p - COLWIDTH) p else p
    else if String.eqb d "right" then
      if (c <? numCols - 1)%Z then Player.set_x (Player.x p + COLWIDTH) p else p
    else if String.eqb d "up" then
      if (0 <? r)%Z then Player.set_y (Player.y p - ROWHEIGHT) p else p
    else if String.eqb d "down" then
      if (r <? numRows numLanes - 1)%Z
      then Player.set_y (Player.y p + ROWHEIGHT) p else p
    else p
  end.
Proof.
  intros H. unfold handleInput. destruct d as [d |]; [| reflexivity].
  rewrite (col_gt_0 c r p H), (col_lt c r _ p H),
    (row_gt_0 c r p H), (row_lt c r _ p H).
  reflexivity.
Qed.

Lemma on_grid_handleInput (d : option string) (p : Player.t) :
  on_grid numLanes numCols p ->
  on_grid numLanes numCols (handleInput numLanes numCols d p).
Proof.
  intros (c & r & Hc & Hr & Ht).
  rewrite (handleInput_on_tile d c r p Ht).
  destruct d as [d |]; [| exists c, r; auto].
  repeat match goal with
    | |- context [String.eqb ?a ?b] => destruct (String.eqb a b)
    | |- context [(?a <? ?b)%Z] => destruct (Z.ltb_spec a b)
    end;
    try (exists c, r; auto; fail).
  - exists (c - 1)%Z, r. split; [lia | split; [lia | apply on_tile_left, Ht]].
  - exists (c + 1)%Z, r. split; [lia | split; [lia | apply on_tile_right, Ht]].
  - exists c, (r - 1)%Z. split; [lia | split; [lia | apply on_tile_up, Ht]].
  - exists c, (r + 1)%Z. split; [lia | split; [lia | apply on_tile_down, Ht]].
Qed.

Lemma fold_act_on_grid (acts : list Action) (p : Player.t) :
  (1 <= numCols)%Z -> (1 <= numLanes)%Z ->
  on_grid numLanes numCols p ->
  on_grid numLanes numCols (fold_left (act numLanes numCols) acts p).
Proof.
  intros Hc Hl. revert p.
  induction acts as [| a acts IH]; intros p Hp; cbn [fold_left].
  - exact Hp.
  - apply IH. destruct a as [d |]; cbn [act].
    + apply on_grid_handleInput, Hp.
    + apply on_grid_start; assumption.
Qed.

Lemma handleInput_unrecognized (d : string) (p : Player.t) :
  d <> "left"%string -> d <> "right"%string ->
  d <> "up"%string -> d <> "down"%string ->
  handleInput numLanes numCols (Some d) p = p.
Proof.
  intros Hl Hr Hu Hd. unfold handleInput.
  apply String.eqb_neq in Hl, Hr, Hu, Hd.
  rewrite Hl, Hr, Hu, Hd. reflexivity.
Qed.

(** C2. A player whose x is c columns from the left edge, 0 <= c <= numCols
    - 1, and who receives "left": at c = 0 nothing changes; at c > 0 the x
    goes down by exactly COLWIDTH (to column c - 1) and y and the sprite
    keep their values. *)
Theorem handleInput_left_step (c : Z) (p : Player.t) :
  (0 <= c <= numCols - 1)%Z ->
  Player.x p == (c * COLWIDTH)%Z ->
  let p' := handleInput numLanes numCols (Some "left"%string) p in
  (c = 0%Z -> p' = p) /\
  ((0 < c)%Z ->
     Player.x p' = Player.x p - COLWIDTH /\
     Player.x p' == ((c - 1) * COLWIDTH)%Z /\
     Player.y p' = Player.y p /\
     Player.sprite p' = Player.sprite p).
Proof.
  intros Hc Hx.
  assert (Hcol : Qgtb (getCurrentCol p) 0 = (0 <? c)%Z).
  { rewrite <- (Qgtb_Z c 0). unfold Qgtb.
    apply Qltb_compat; [reflexivity |].
    unfold getCurrentCol. rewrite Hx, inject_Z_mult. unfold COLWIDTH. field. }
  cbv zeta. unfold handleInput. cbn [String.eqb Ascii.eqb Bool.eqb].
  rewrite Hcol. split.
  - intros ->. reflexivity.
  - intros Hpos. destruct (Z.ltb_spec 0 c) as [_ | Hn]; [| lia].
    cbn [Player.x Player.y Player.sprite Player.set_x].
    repeat split.
    rewrite Hx, !inject_Z_mult. unfold Z.sub. rewrite inject_Z_plus. cbn. ring.
Qed.

(** C3. [Player.update] with the player's row below 1: the streak goes up by
    exactly one, whatever it was, and the player is put on the start
    position (playerStartCol * COLWIDTH, PlayerStartRow * ROWHEIGHT + dy);
    the enemies are not touched.  With the row at 1 or more nothing
    changes. *)
Theorem Player_update_goal (g : Game) :
  let g' := Player_update numLanes numCols g in
  (getCurrentRow (player g) < 1 ->
     Stats.streak (stats g') = (Stats.streak (stats g) + 1)%Z /\
     Player.x (player g') = (playerStartCol numCols * COLWIDTH)%Z /\
     Player.y (player g') = (PlayerStartRow numLanes * ROWHEIGHT + dy)%Z /\
     allEnemies g' = allEnemies g) /\
  (1 <= getCurrentRow (player g) -> g' = g).
Proof.
  cbv zeta. unfold Player_update. split.
  - intros H. apply Qltb_lt in H. rewrite H. repeat split.
  - intros H. apply Qltb_ge in H. rewrite H. reflexivity.
Qed.

(** C10. With at least one column and one lane: after [setInitialPosition]
    and any sequence of [handleInput] calls (with any argument) and resets,
    the player is on a tile (c, r) of the grid, x = c * COLWIDTH and y = r *
    ROWHEIGHT + dy with 0 <= c <= numCols - 1 and 0 <= r <= numRows - 1.  An
    argument that is none of the four directions changes nothing. *)
Theorem player_stays_on_grid (acts : list Action) (p : Player.t) :
  (1 <= numCols)%Z -> (1 <= numLanes)%Z ->
  on_grid numLanes numCols (play numLanes numCols acts p) /\
  (forall q, handleInput numLanes numCols None q = q) /\
  (forall d q,
      d <> "left"%string -> d <> "right"%string ->
      d <> "up"%string -> d <> "down"%string ->
      handleInput numLanes numCols (Some d) q = q).
Proof.
  intros Hc Hl. split; [| split].
  - unfold play. apply fold_act_on_grid; try assumption.
    apply on_grid_start; assumption.
  - reflexivity.
  - apply handleInput_unrecognized.
Qed.

End Globals.

Lemma handleInput_left_step_witness :
  let p := Player.mk 303 555 "images/char-boy.png" in
  Player.x (handleInput 5 7 (Some "left"%string) p) = Player.x p - COLWIDTH.
Proof.
  intros p.
  destruct (handleInput_left_step 5 7 3 p) as [_ H];
    [lia | reflexivity | apply H; lia].
Defined.

Lemma Player_update_goal_witness :
  let goal := mkGame (Player.mk 303 (-26) "images/char-boy.png") []
                (Stats.mk 637 682 41) in
  let lane := mkGame (Player.mk 303 223 "images/char-boy.png") []
                (Stats.mk 637 682 41) in
  Stats.streak (stats (Player_update 5 7 goal)) = 42%Z /\
  Player_update 5 7 lane = lane.
Proof.
  intros goal lane. split.
  - destruct (Player_update_goal 5 7 goal) as [H _].
    apply H. reflexivity.
  - destruct (Player_update_goal 5 7 lane) as [_ H].
    apply H. discriminate.
Defined.

Lemma player_stays_on_grid_witness :
  on_grid 5 7
    (play 5 7
       [Input (Some "up"%string); Input (Some "left"%string); Input None;
        Reset; Input (Some "jump"%string); Input (Some "down"%string)]
       (Player.mk 0 0 "images/char-boy.png")).
Proof.
  apply (player_stays_on_grid 5 7); lia.
Defined.

(** The scenario of four lanes and seven columns: seven rows, start tile
    (3, 6); six times "up" from the start reach row 0, where a seventh "up"
    is ignored and [Player.update] counts one success. *)
Example four_lanes_seven_columns :
  let up := Input (Some "up"%string) in
  let p6 := play 4 7 [up; up; up; up; up; up] (Player.mk 0 0 "") in
  (numRows 4, playerStartCol 7, PlayerStartRow 4) = (7, 3, 6)%Z /\
  on_tile 3 0 p6 /\
  handleInput 4 7 (Some "up"%string) p6 = p6 /\
  Stats.streak (stats (Player_update 4 7 (mkGame p6 [] (Stats.mk 0 0 0))))
  = 1%Z.
Proof.
  cbv zeta. repeat split; vm_compute; reflexivity.
Qed.

End PlayerFacts.

(** ** Collisions of one tick *)

Module CollisionsFacts.
Import App Trace.

Local Open Scope Q_scope.
Local Coercion inject_Z : Z >-> Q.

Section Globals.
Variables (numLanes numCols : Z).

(** The failure transition: streak 0 and start position, from any state. *)
Lemma die_resets (g : Game) :
  Stats.streak (stats (die numLanes numCols g)) = 0%Z /\
  Player.x (player (die numLanes numCols g))
    = (playerStartCol numCols * COLWIDTH)%Z /\
  Player.y (player (die numLanes numCols g))
    = (PlayerStartRow numLanes * ROWHEIGHT + dy)%Z /\
  allEnemies (die numLanes numCols g) = allEnemies g.
Proof. repeat split. Qed.

Lemma die_idempotent (g : Game) :
  die numLanes numCols (die numLanes numCols g) = die numLanes numCols g.
Proof. reflexivity. Qed.

Lemma forEach_log_state (enemies : list Enemy.t) (g : Game) :
  snd (forEach_log numLanes numCols enemies g)
  = forEach numLanes numCols enemies g.
Proof.
  revert g. induction enemies as [| e es IH]; intros g; cbn.
  - reflexivity.
  - destruct (checkCollision e (player g)).
    + specialize (IH (die numLanes numCols g)).
      destruct (forEach_log numLanes numCols es (die numLanes numCols g)).
      exact IH.
    + specialize (IH g).
      destruct (forEach_log numLanes numCols es g). exact IH.
Qed.

Lemma forEach_log_shape (enemies : list Enemy.t) (g : Game) :
  let log := fst (forEach_log numLanes numCols enemies g) in
  tested log = enemies /\ hit_then_die log = true /\ deaths log = hits log.
Proof.
  revert g. induction enemies as [| e es IH]; intros g; cbn.
  - repeat split.
  - destruct (checkCollision e (player g)).
    + specialize (IH (die numLanes numCols g)).
      destruct (forEach_log numLanes numCols es (die numLanes numCols g))
        as [log g'].
      cbn in *. destruct IH as (H1 & H2 & H3).
      repeat split; [f_equal; exact H1 | exact H2 | f_equal; exact H3].
    + specialize (IH g).
      destruct (forEach_log numLanes numCols es g) as [log g'].
      cbn in *. destruct IH as (H1 & H2 & H3).
      repeat split; [f_equal; exact H1 | exact H2 | exact H3].
Qed.

Lemma forEach_after_die (enemies : list Enemy.t) (g : Game) :
  forEach numLanes numCols enemies (die numLanes numCols g)
  = die numLanes numCols g.
Proof.
  induction enemies as [| e es IH]; cbn.
  - reflexivity.
  - destruct (checkCollision e _); [rewrite die_idempotent |]; exact IH.
Qed.

(** The state after the loop: the failure state as soon as one enemy hits
    the player, the state before the loop otherwise. *)
Lemma checkCollisions_outcome (g : Game) :
  checkCollisions numLanes numCols g =
  if existsb (fun enemy => checkCollision enemy (player g)) (allEnemies g)
  then die numLanes numCols g else g.
Proof.
  unfold checkCollisions. fold (forEach numLanes numCols (allEnemies g) g).
  generalize (allEnemies g) as es.
  induction es as [| e es IH]; cbn.
  - reflexivity.
  - destruct (checkCollision e (player g)); cbn.
    + apply forEach_after_die.
    + exact IH.
Qed.

Lemma forEach_log_verdict
  (before : list Enemy.t) (enemy : Enemy.t) (after : list Enemy.t)
  (g : Game) :
  nth_error
    (verdicts (fst (forEach_log numLanes numCols (before ++ enemy :: after) g)))
    (List.length before)
  = Some (enemy,
          checkCollision enemy (player (forEach numLanes numCols before g))).
Proof.
  revert g. induction before as [| b bs IH]; intros g.
  - cbn [app forEach_log List.length]. unfold forEach. cbn [fold_left].
    destruct (checkCollision enemy (player g)) eqn:E;
      destruct (forEach_log numLanes numCols after _); reflexivity.
  - cbn [app forEach_log List.length]. unfold forEach. cbn [fold_left].
    destruct (checkCollision b (player g)).
    + specialize (IH (die numLanes numCols g)).
      destruct (forEach_log numLanes numCols (bs ++ enemy :: after)
                  (die numLanes numCols g)).
      exact IH.
    + specialize (IH g).
      destruct (forEach_log numLanes numCols (bs ++ enemy :: after) g).
      exact IH.
Qed.

Lemma forEach_log_deaths (enemies : list Enemy.t) (g : Game) :
  let log := fst (forEach_log numLanes numCols enemies g) in
  deaths log = List.length (filter snd (verdicts log)).
Proof.
  revert g. induction enemies as [| e es IH]; intros g; cbn.
  - reflexivity.
  - destruct (checkCollision e (player g)).
    + specialize (IH (die numLanes numCols g)).
      destruct (forEach_log numLanes numCols es (die numLanes numCols g)).
      cbn in *. f_equal. exact IH.
    + specialize (IH g).
      destruct (forEach_log numLanes numCols es g). exact IH.
Qed.

Lemma forEach_snoc (before : list Enemy.t) (enemy : Enemy.t) (g : Game) :
  forEach numLanes numCols (before ++ [enemy]) g
  = (if checkCollision enemy (player (forEach numLanes numCols before g))
     then die numLanes numCols (forEach numLanes numCols before g)
     else forEach numLanes numCols before g).
Proof. unfold forEach. rewrite fold_left_app. reflexivity. Qed.

(** C4. One call of [checkCollisions]: the enemies tested are the enemies of
    the array, in its order; every test that reports a hit is followed at
    once by a call of [player.die], and there is no other such call, so
    there are as many failure transitions as hits; the recorded loop ends
    in the state [checkCollisions] computes.  The verdict recorded for the
    enemy at each index is [checkCollision] of that enemy and the player as
    the iterations before it left the player; a hit there applies [die] to
    the state the loop has reached, whether or not an earlier enemy already
    hit, and the deaths are as many as the verdicts that are true.  A
    failure transition, from any state, leaves the streak at 0 and the
    player at the start position. *)
Theorem checkCollisions_every_hit_dies (g : Game) :
  let log := fst (checkCollisions_log numLanes numCols g) in
  tested log = allEnemies g /\
  hit_then_die log = true /\
  deaths log = hits log /\
  snd (checkCollisions_log numLanes numCols g)
    = checkCollisions numLanes numCols g /\
  (forall g0 : Game,
      Stats.streak (stats (die numLanes numCols g0)) = 0%Z /\
      Player.x (player (die numLanes numCols g0))
        = (playerStartCol numCols * COLWIDTH)%Z /\
      Player.y (player (die numLanes numCols g0))
        = (PlayerStartRow numLanes * ROWHEIGHT + dy)%Z) /\
  (forall (before : list Enemy.t) (enemy : Enemy.t) (after : list Enemy.t),
      allEnemies g = before ++ enemy :: after ->
      let reached := forEach numLanes numCols before g in
      nth_error (verdicts log) (List.length before)
        = Some (enemy, checkCollision enemy (player reached)) /\
      forEach numLanes numCols (before ++ [enemy]) g
        = (if checkCollision enemy (player reached)
           then die numLanes numCols reached else reached)) /\
  deaths log = List.length (filter snd (verdicts log)) /\
  checkCollisions numLanes numCols g
    = forEach numLanes numCols (allEnemies g) g.
Proof.
  cbv zeta. unfold checkCollisions_log.
  destruct (forEach_log_shape (allEnemies g) g) as (H1 & H2 & H3).
  split; [exact H1 |]. split; [exact H2 |]. split; [exact H3 |].
  split; [apply forEach_log_state |].
  split; [intros g0; repeat split |].
  split; [| split; [apply forEach_log_deaths | reflexivity]].
  intros before enemy after Hsplit. rewrite Hsplit.
  split; [apply forEach_log_verdict | apply forEach_snoc].
Qed.

End Globals.

(** Two hits in one call are two failure transitions: hits are not merged.
    (Both enemies stand on the start tile, where the player is put back
    after the first failure.) *)
Example two_hits_two_deaths :
  let bug := Enemy.mk 303 555 "images/enemy-bug.png" 250 in
  let g := mkGame (Player.mk 303 555 "images/char-boy.png") [bug; bug]
             (Stats.mk 637 682 3) in
  fst (checkCollisions_log 5 7 g)
  = [Tested bug true; Died; Tested bug true; Died].
Proof. reflexivity. Qed.

Lemma checkCollisions_every_hit_dies_witness :
  let near := Enemy.mk 250 140 "images/enemy-bug.png" 300 in
  let far := Enemy.mk 0 223 "images/enemy-bug.png" 250 in
  let g := mkGame (Player.mk 303 140 "images/char-boy.png") [far; near]
             (Stats.mk 637 682 3) in
  nth_error (Trace.verdicts (fst (checkCollisions_log 5 7 g))) 1
  = Some (near, true).
Proof.
  intros near far g.
  destruct (checkCollisions_every_hit_dies 5 7 g)
    as (_ & _ & _ & _ & _ & H & _).
  destruct (H [far] near []) as [Hv _]; [reflexivity | exact Hv].
Defined.

End CollisionsFacts.

(** ** Enemies *)

Module EnemyFacts.
Import App.

Local Open Scope Q_scope.
Local Coercion inject_Z : Z >-> Q.

Lemma fair_advance (r : Rng) :
  fair r -> fair {| draws := draws r; cursor := S (cursor r) |}.
Proof. intros H n. exact (H n). Qed.

(** [getRandomInt min max] with 0 <= min <= max: an integer that is at
    least min, and at most max when max has no more than 53 bits.  (The
    sum under [Math.floor] can round up to max itself.) *)
Lemma getRandomInt_range (min max : Z) (r : Rng) :
  fair r -> (0 <= min <= 2 ^ 52)%Z -> (min <= max)%Z ->
  let v := fst (getRandomInt min max r) in
  (min <= v)%Z /\ ((max <= 2 ^ 52)%Z -> (v <= max)%Z) /\
  fair (snd (getRandomInt min max r)).
Proof.
  intros Hf Hmin Hm. unfold getRandomInt, bind, Math_random, ret.
  cbn [fst snd].
  destruct (Hf (cursor r)) as [H0 H1].
  set (u := draws r (cursor r)) in *.
  assert (Hspan : 0 <= inject_Z (max - min)).
  { change 0 with (inject_Z 0). rewrite <- Zle_Qle. lia. }
  assert (Hmin0 : 0 <= inject_Z min).
  { change 0 with (inject_Z 0). rewrite <- Zle_Qle. lia. }
  pose proof (DoubleFacts.round64_nonneg _ Hspan) as Hs0.
  set (s := Double.round64 (inject_Z (max - min))) in *.
  assert (Hus : 0 <= u * s) by nra.
  pose proof (DoubleFacts.round64_nonneg _ Hus) as Hp0.
  set (p := Double.round64 (u * s)) in *.
  split; [| split; [| apply fair_advance, Hf]].
  - rewrite <- (Qfloor_Z min) at 1. apply Qfloor_resp_le.
    apply DoubleFacts.round64_ge_int; [exact Hmin | lra].
  - intros Hmax.
    assert (Hs1 : s <= inject_Z (max - min)).
    { apply DoubleFacts.round64_le_int; [exact Hspan | apply Qle_refl | lia]. }
    assert (Hp1 : p <= inject_Z (max - min)).
    { apply DoubleFacts.round64_le_int; [exact Hus | nra | lia]. }
    assert (Hsum : Double.round64 (p + inject_Z min) <= inject_Z max).
    { apply DoubleFacts.round64_le_int; [lra | | exact Hmax].
      unfold Z.sub in Hp1. rewrite inject_Z_plus, inject_Z_opp in Hp1. lra. }
    pose proof (Qfloor_le (Double.round64 (p + inject_Z min))) as Hfl.
    rewrite Zle_Qle. lra.
Qed.

Section Globals.
Variables (numLanes numCols : Z).
Variable baseEnemySpeed : Q.
Variable gameDifficulty : Z.

(** The values [setRandomValues] rolls: at least one column to the left of
    the field, row 1 or below it, speed step 1 or above; and, for settings
    of at most 52 bits, no further than the values one past the arguments
    of [getRandomInt].  It draws three times. *)
Lemma setRandomValues_rolls (e : Enemy.t) (r : Rng) :
  (1 <= numCols)%Z -> (1 <= numLanes)%Z -> (1 <= gameDifficulty)%Z ->
  fair r ->
  let e' := fst (setRandomValues numLanes numCols baseEnemySpeed
                   gameDifficulty e r) in
  let r' := snd (setRandomValues numLanes numCols baseEnemySpeed
                   gameDifficulty e r) in
  exists i j k : Z,
    ((1 <= i)%Z /\ ((numCols <= 2 ^ 52)%Z -> (i <= numCols)%Z)) /\
    ((1 <= j)%Z /\ ((numLanes + 1 <= 2 ^ 52)%Z -> (j <= numLanes + 1)%Z)) /\
    ((1 <= k)%Z /\
     ((gameDifficulty + 1 <= 2 ^ 52)%Z -> (k <= gameDifficulty + 1)%Z)) /\
    Enemy.x e' = i * (- COLWIDTH)%Z /\
    Enemy.y e' = j * ROWHEIGHT + dy /\
    Enemy.speed e' = baseEnemySpeed + 50 * k /\
    Enemy.sprite e' = Enemy.sprite e /\
    fair r' /\ cursor r' = (3 + cursor r)%nat.
Proof.
  intros Hc Hl Hd Hf. unfold setRandomValues, bind, ret.
  assert (Hone : (0 <= 1 <= 2 ^ 52)%Z) by lia.
  pose proof (getRandomInt_range 1 numCols r Hf Hone Hc) as H1.
  destruct (getRandomInt 1 numCols r) as [i r1] eqn:E1.
  cbn [fst snd] in H1. destruct H1 as (Hi1 & Hi2 & Hf1).
  pose proof (getRandomInt_range 1 (numLanes + 1) r1 Hf1 Hone ltac:(lia))
    as H2.
  destruct (getRandomInt 1 (numLanes + 1) r1) as [j r2] eqn:E2.
  cbn [fst snd] in H2. destruct H2 as (Hj1 & Hj2 & Hf2).
  pose proof (getRandomInt_range 1 (gameDifficulty + 1) r2 Hf2 Hone
                ltac:(lia)) as H3.
  destruct (getRandomInt 1 (gameDifficulty + 1) r2) as [k r3] eqn:E3.
  cbn [fst snd] in H3. destruct H3 as (Hk1 & Hk2 & Hf3).
  exists i, j, k. cbn [fst snd].
  split; [split; assumption |].
  split; [split; assumption |].
  split; [split; assumption |].
  do 4 (split; [reflexivity |]).
  split; [exact Hf3 |].
  unfold getRandomInt, bind, Math_random, ret in E1, E2, E3.
  inversion E1; subst r1. inversion E2; subst r2. inversion E3; subst r3.
  reflexivity.
Qed.

End Globals.

Lemma fair_high : fair high.
Proof. intros n. cbn. split; [discriminate | reflexivity]. Defined.

(** C5, where the code leaves the claim.  With the settings app.js itself
    has (5 lanes, 7 columns, base speed 200, difficulty 4), an enemy at the
    right edge of the field, and [Math.random] returning the largest double
    below 1: [getRandomInt(1, gameDifficulty + 1)] is 5, because 5 - 2^-51
    is half way between two doubles and rounds to 5; the update sets the
    speed 200 + 50 * 5 = 450, which is baseEnemySpeed + 50 k for no k in
    1 .. gameDifficulty.  With 4 lanes the same draw gives row 5, below the
    last lane. *)
Theorem Enemy_update_rolls_out_of_range :
  let bug := Enemy.mk 707 140 "images/enemy-bug.png" 300 in
  let rolled := fst (Enemy_update 5 7 200 4 (1 # 60) bug high) in
  let rolled4 := fst (Enemy_update 4 7 200 4 (1 # 60) bug high) in
  fair high /\
  Double.round64 below_one == below_one /\
  (COLWIDTH * 7)%Z <= Enemy.x bug /\
  fst (getRandomInt 1 (4 + 1) high) = 5%Z /\
  Enemy.speed rolled == 200 + 50 * 5 /\
  ~ (exists k : Z, (1 <= k <= 4)%Z /\ Enemy.speed rolled == 200 + 50 * k) /\
  Enemy.y rolled4 == (5 * ROWHEIGHT + dy)%Z /\
  ~ Enemy.y rolled4 <= (4 * ROWHEIGHT + dy)%Z.
Proof.
  cbv zeta.
  assert (Hs : Enemy.speed
                 (fst (Enemy_update 5 7 200 4 (1 # 60)
                         (Enemy.mk 707 140 "images/enemy-bug.png" 300) high))
               == 450) by (vm_compute; reflexivity).
  assert (Hy : Enemy.y
                 (fst (Enemy_update 4 7 200 4 (1 # 60)
                         (Enemy.mk 707 140 "images/enemy-bug.png" 300) high))
               == 389) by (vm_compute; reflexivity).
  split; [exact fair_high |].
  split; [vm_compute; reflexivity |].
  split; [discriminate |].
  split; [vm_compute; reflexivity |].
  split; [rewrite Hs; reflexivity |].
  split.
  - intros (k & Hk & H). rewrite Hs in H.
    assert (Hz : inject_Z 450 == inject_Z (200 + 50 * k)).
    { rewrite inject_Z_plus, inject_Z_mult. exact H. }
    rewrite inject_Z_injective in Hz. lia.
  - split; [rewrite Hy; reflexivity |].
    rewrite Hy. intros H. apply Qle_bool_iff in H. discriminate H.
Qed.

Lemma fair_half : fair half.
Proof. intros n. cbn. split; [discriminate | reflexivity]. Defined.

Example Enemy_update_rolls_half :
  let bug := Enemy.mk 707 140 "images/enemy-bug.png" 300 in
  fst (Enemy_update 5 7 200 4 (1 # 60) bug half)
  = Enemy.mk (-404) 223 "images/enemy-bug.png" 350.
Proof. vm_compute. reflexivity. Qed.

End EnemyFacts.

(** ** More on the CONFIG setters *)

Module ConfigMore.
Import CONFIG ConfigRun.

Ltac unfold_setters :=
  unfold incrementGameDifficulty, incrementNumEnemies, incrementNumLanes,
    incrementNumCols, decrementGameDifficulty, decrementNumEnemies,
    decrementNumLanes, decrementNumCols, setScalingFactor in *.

Ltac no_guard a :=
  lazymatch a with
  | context [if _ then _ else _] => fail
  | _ => idtac
  end.

Ltac split_guards :=
  repeat match goal with
    | |- context [?a <? ?b] => no_guard a; destruct (Z.ltb_spec a b)
    | |- context [?a >? ?b] =>
        no_guard a; rewrite (Z.gtb_ltb a b); destruct (Z.ltb_spec b a)
    end.

Lemma settings_eq (s s' : Settings) :
  colWidth s = colWidth s' -> rowHeight s = rowHeight s' ->
  tileBottom s = tileBottom s' -> tileTop s = tileTop s' ->
  tileHeight s = tileHeight s' -> dy s = dy s' -> scale s = scale s' ->
  numLanes s = numLanes s' -> numCols s = numCols s' ->
  numEnemies s = numEnemies s' -> baseEnemySpeed s = baseEnemySpeed s' ->
  gameDifficulty s = gameDifficulty s' ->
  s = s'.
Proof. destruct s, s'; cbn; intros; subst; reflexivity. Qed.

(** X1. An increment that is applied is undone by the next decrement, and a
    decrement that is applied is undone by the next increment, as long as
    the setting stays within its bounds: the settings object is back to
    what it was, field for field. *)
Theorem increment_decrement_round_trip (t : Tunable) (s : Settings) :
  (lower t <= value t s < upper t ->
     snd (decrement t (snd (increment t s))) = s) /\
  (lower t < value t s <= upper t ->
     snd (increment t (snd (decrement t s))) = s).
Proof.
  split; intros H;
    destruct t; cbn [increment decrement value upper lower] in *;
    unfold_setters; split_guards; cbn [fst snd] in *; try lia;
    cbn -[Z.add Z.sub Z.ltb Z.gtb] in *; split_guards; try lia;
    apply settings_eq; cbn -[Z.add Z.sub]; try reflexivity; lia.
Qed.

Lemma increment_decrement_round_trip_witness :
  let s := init 4 7 10 200 4 settings0 in
  snd (decrementNumLanes (snd (incrementNumLanes s))) = s /\
  snd (incrementNumCols (snd (decrementNumCols s))) = s.
Proof.
  intros s. split.
  - apply (proj1 (increment_decrement_round_trip NumLanes s)). cbn. lia.
  - apply (proj2 (increment_decrement_round_trip NumCols s)). cbn. lia.
Defined.

(** The same setter called [n] times in a row. *)
Lemma value_increment (t : Tunable) (s : Settings) :
  value t (snd (increment t s))
  = if value t s <? upper t then value t s + 1 else value t s.
Proof.
  destruct t; cbn [increment value upper]; unfold_setters;
    split_guards; try reflexivity; lia.
Qed.

Lemma value_decrement (t : Tunable) (s : Settings) :
  value t (snd (decrement t s))
  = if lower t <? value t s then value t s - 1 else value t s.
Proof.
  destruct t; cbn [decrement value lower]; unfold_setters;
    split_guards; try reflexivity; lia.
Qed.

Lemma others_increment (t : Tunable) (s : Settings) :
  others t (snd (increment t s)) = others t s.
Proof.
  destruct t; cbn [increment]; unfold_setters; split_guards; try reflexivity; lia.
Qed.

Lemma others_decrement (t : Tunable) (s : Settings) :
  others t (snd (decrement t s)) = others t s.
Proof.
  destruct t; cbn [decrement]; unfold_setters; split_guards; try reflexivity; lia.
Qed.

(** X2. Calling an increment setter [n] times from a setting at or below
    its upper bound leaves the setting at min(upper, value + n): it climbs
    one by one and then stays at the bound.  Calling a decrement setter [n]
    times from a setting at or above its lower bound leaves it at
    max(lower, value - n).  No other field changes. *)
Theorem repeated_setter_saturates (t : Tunable) (n : nat) (s : Settings) :
  let up := Nat.iter n (fun s => snd (increment t s)) s in
  let down := Nat.iter n (fun s => snd (decrement t s)) s in
  (value t s <= upper t ->
     value t up = Z.min (upper t) (value t s + Z.of_nat n)) /\
  (lower t <= value t s ->
     value t down = Z.max (lower t) (value t s - Z.of_nat n)) /\
  others t up = others t s /\ others t down = others t s.
Proof.
  cbv zeta. induction n as [| n IH].
  - simpl Nat.iter. repeat split; lia.
  - simpl Nat.iter. destruct IH as (Hup & Hdown & Houp & Hodown).
    rewrite value_increment, value_decrement, others_increment,
      others_decrement.
    repeat split; try assumption.
    + intros H. specialize (Hup H). rewrite Hup.
      destruct (Z.ltb_spec (Z.min (upper t) (value t s + Z.of_nat n))
                  (upper t)); lia.
    + intros H. specialize (Hdown H). rewrite Hdown.
      destruct (Z.ltb_spec (lower t)
                  (Z.max (lower t) (value t s - Z.of_nat n))); lia.
Qed.

Lemma repeated_setter_saturates_witness :
  let s := init 4 7 10 200 4 settings0 in
  value NumLanes (Nat.iter 9 (fun s => snd (increment NumLanes s)) s) = 10 /\
  value NumEnemies (Nat.iter 12 (fun s => snd (decrement NumEnemies s)) s) = 0.
Proof.
  intros s. split.
  - rewrite (proj1 (repeated_setter_saturates NumLanes 9 s)); [reflexivity |].
    cbn. lia.
  - rewrite (proj1 (proj2 (repeated_setter_saturates NumEnemies 12 s)));
      [reflexivity |].
    cbn. lia.
Defined.

Lemma exec_within_bounds (s : Settings) (c : Command) :
  ConfigOps.within_bounds s -> ConfigOps.within_bounds (exec s c).
Proof.
  intros H t.
  pose proof (H GameDifficulty) as Hd. pose proof (H NumEnemies) as He.
  pose proof (H NumLanes) as Hl. pose proof (H NumCols) as Hc.
  cbn [value upper lower] in Hd, He, Hl, Hc.
  destruct c as [t' | t' | v]; [destruct t' | destruct t' |];
    destruct t; cbn [exec increment decrement value upper lower];
    unfold_setters; split_guards; cbn; lia.
Qed.

Lemma run_within_bounds (cs : list Command) (s : Settings) :
  ConfigOps.within_bounds s -> ConfigOps.within_bounds (run cs s).
Proof.
  unfold run. revert s.
  induction cs as [| c cs IH]; intros s H; cbn [fold_left].
  - exact H.
  - apply IH, exec_within_bounds, H.
Qed.

(** X3. When [init] is given values within the setters' bounds (lanes
    1..10, columns 1..20, enemies 0..20, difficulty 1..20), no sequence of
    increment, decrement and scale calls takes a setting out of its bounds;
    so there are always 4 to 13 rows, the start column is a column of the
    grid, and the native canvas is between 101 x 420 and 2020 x 1167
    pixels. *)
Theorem settings_stay_within_bounds
  (nLanes nCols nEnemies : Z) (baseSpeed : Q) (difficulty : Z)
  (cs : list Command) :
  1 <= nLanes <= 10 -> 1 <= nCols <= 20 -> 0 <= nEnemies <= 20 ->
  1 <= difficulty <= 20 ->
  let s := run cs (init nLanes nCols nEnemies baseSpeed difficulty settings0) in
  ConfigOps.within_bounds s /\
  4 <= getNumRows s <= 13 /\
  0 <= getPlayerStartCol s <= getNumCols s - 1 /\
  101 <= getNativeCanvasWidth s <= 2020 /\
  420 <= getNativeCanvasHeight s <= 1167.
Proof.
  intros Hl Hc He Hd s.
  assert (Hb : ConfigOps.within_bounds s).
  { apply run_within_bounds. intros [| | |]; cbn; assumption. }
  pose proof (Hb NumLanes) as Hl'. pose proof (Hb NumCols) as Hc'.
  cbn [value upper lower] in Hl', Hc'.
  pose proof (ConfigFacts.run_tileset cs
    (init nLanes nCols nEnemies baseSpeed difficulty settings0)) as Ht.
  fold s in Ht. cbn in Ht. inversion Ht as [[Hcw Hrh Htt Htb Hth Hdy]].
  split; [exact Hb |].
  unfold getNativeCanvasHeight, getNativeCanvasWidth, getNumRows, getNumCols.
  unfold getPlayerStartCol. rewrite ConfigFacts.floor_half.
  rewrite Hcw, Hrh, Htt, Htb.
  pose proof (Z.mul_div_le (numCols s) 2).
  pose proof (Z.mul_succ_div_gt (numCols s) 2).
  repeat split; lia.
Qed.

Lemma settings_stay_within_bounds_witness :
  let s := run [Increment NumLanes; Decrement NumCols; SetScalingFactor (1 # 2);
                Increment GameDifficulty]
             (init 10 1 0 200 20 settings0) in
  4 <= getNumRows s <= 13.
Proof.
  intros s.
  apply (settings_stay_within_bounds 10 1 0 200 20); lia.
Defined.

(** X4. Two commands that write different settings can be made in either
    order: the settings object ends up the same.  This covers two setters
    of different tunables and a tunable setter with the scale setter. *)
Theorem independent_commands_commute (c1 c2 : Command) (s : Settings) :
  ConfigOps.target c1 <> ConfigOps.target c2 ->
  exec (exec s c1) c2 = exec (exec s c2) c1.
Proof.
  intros H.
  destruct c1 as [t1 | t1 | v1]; destruct c2 as [t2 | t2 | v2];
    try destruct t1; try destruct t2;
    cbn [ConfigOps.target] in H; try congruence;
    cbn [exec increment decrement]; unfold_setters;
    cbn -[Z.add Z.sub Z.ltb Z.gtb];
    repeat (match goal with
            | |- context [if ?b then _ else _] =>
                no_guard b; destruct b eqn:?
            end;
            cbn -[Z.add Z.sub Z.ltb Z.gtb];
            repeat match goal with
              | E : ?b = _ |- context [?b] => rewrite E
              end);
    reflexivity.
Qed.

Lemma independent_commands_commute_witness :
  let s := init 4 7 10 200 4 settings0 in
  exec (exec s (Increment NumLanes)) (SetScalingFactor (1 # 2))
  = exec (exec s (SetScalingFactor (1 # 2))) (Increment NumLanes).
Proof.
  intros s. apply independent_commands_commute. discriminate.
Defined.

(** On the same setting the order matters at a bound: from 10 lanes,
    increment-then-decrement ends at 9, decrement-then-increment at 10. *)
Example same_setting_order_matters :
  let s := init 10 7 10 200 4 settings0 in
  numLanes (exec (exec s (Increment NumLanes)) (Decrement NumLanes)) = 9 /\
  numLanes (exec (exec s (Decrement NumLanes)) (Increment NumLanes)) = 10.
Proof. split; reflexivity. Qed.

End ConfigMore.

(** ** Random integers *)

Module RandomFacts.
Import App.

Local Open Scope Q_scope.
Local Coercion inject_Z : Z >-> Q.

(** X5. For integers 0 <= min <= max <= 2^52 and draws in [0, 1),
    [getRandomInt min max] returns an integer v with min <= v <= max and
    consumes exactly one draw.  The upper end is reached: with the largest
    double below 1 as the draw, [getRandomInt 1 5] is 5, where exact
    arithmetic would give 4. *)
Theorem getRandomInt_closed_range (min max : Z) (r : Rng) :
  fair r -> (0 <= min)%Z -> (min <= max)%Z -> (max <= 2 ^ 52)%Z ->
  let v := fst (getRandomInt min max r) in
  let r' := snd (getRandomInt min max r) in
  ((min <= v <= max)%Z /\
   draws r' = draws r /\ cursor r' = S (cursor r)) /\
  (fair high /\ fst (getRandomInt 1 5 high) = 5%Z /\
   Qfloor (below_one * inject_Z (5 - 1) + 1) = 4%Z).
Proof.
  intros Hf H0 Hm Hmax. cbv zeta. split.
  - destruct (EnemyFacts.getRandomInt_range min max r Hf ltac:(lia) Hm)
      as (H1 & H2 & _).
    specialize (H2 Hmax).
    split; [lia | split; reflexivity].
  - split; [exact EnemyFacts.fair_high |].
    split; vm_compute; reflexivity.
Qed.

Lemma getRandomInt_closed_range_witness :
  (1 <= fst (getRandomInt 1 7 half) <= 7)%Z.
Proof.
  destruct (getRandomInt_closed_range 1 7 half) as [[H _] _];
    [exact EnemyFacts.fair_half | lia | lia | lia | exact H].
Defined.

End RandomFacts.

(** ** What a call of checkCollisions leaves behind *)

Module TickFacts.
Import App Trace Grid Play.

Local Open Scope Q_scope.
Local Coercion inject_Z : Z >-> Q.

Section Globals.
Variables (numLanes numCols : Z).

(** X6. [checkCollisions] ends in the failure state (streak 0, player on
    the start position) exactly when some enemy of the array overlaps the
    player as the call finds it; otherwise it changes nothing.  It never
    changes the enemies. *)
Theorem checkCollisions_hit_or_untouched (g : Game) :
  let hit :=
    existsb (fun enemy => checkCollision enemy (player g)) (allEnemies g) in
  let g' := checkCollisions numLanes numCols g in
  g' = (if hit then die numLanes numCols g else g) /\
  Stats.streak (stats g') = (if hit then 0%Z else Stats.streak (stats g)) /\
  allEnemies g' = allEnemies g.
Proof.
  cbv zeta. rewrite CollisionsFacts.checkCollisions_outcome.
  destruct (existsb _ _); repeat split.
Qed.

(** The rows of an enemy and of a player that collide. *)
Lemma hit_same_row (e : Enemy.t) (p : Player.t) (j r : Z) :
  Enemy.y e == (j * ROWHEIGHT + dy)%Z ->
  Player.y p == (r * ROWHEIGHT + dy)%Z ->
  checkCollision e p = true -> j = r.
Proof.
  intros He Hp.
  rewrite CollisionFacts.checkCollision_collides,
    CollisionFacts.collides_true.
  unfold Geometry.enemyBox, Geometry.playerBox;
    cbn [Geometry.left Geometry.right Geometry.top Geometry.bottom].
  rewrite He, Hp.
  rewrite !inject_Z_plus, !inject_Z_mult.
  unfold COLWIDTH, ROWHEIGHT, dy.
  change (inject_Z 83) with 83. change (inject_Z 101) with 101.
  change (inject_Z (-26)) with (-26).
  intros (_ & _ & H3 & H4).
  assert (Hlo : inject_Z (83 * (r - j)) <= inject_Z 8).
  { unfold Z.sub. rewrite inject_Z_mult, inject_Z_plus, inject_Z_opp.
    change (inject_Z 83) with 83. change (inject_Z 8) with 8. lra. }
  assert (Hhi : inject_Z (-18) <= inject_Z (83 * (r - j))).
  { unfold Z.sub. rewrite inject_Z_mult, inject_Z_plus, inject_Z_opp.
    change (inject_Z 83) with 83. change (inject_Z (-18)) with (-18). lra. }
  rewrite <- Zle_Qle in Hlo, Hhi. lia.
Qed.



End Globals.
End TickFacts.

(** ** Safe rows *)

Module SafeRowFacts.
Import App Trace Grid Play.

Local Open Scope Q_scope.
Local Coercion inject_Z : Z >-> Q.

Section Globals.
Variables (numLanes numCols : Z).

Lemma lane_enemy_misses (e : Enemy.t) (p : Player.t) (r : Z) :
  in_lane numLanes e ->
  Player.y p == (r * ROWHEIGHT + dy)%Z ->
  (r < 1 \/ numLanes < r)%Z ->
  checkCollision e p = false.
Proof.
  intros (j & Hj & He) Hp Hr.
  destruct (checkCollision e p) eqn:E; [| reflexivity].
  pose proof (TickFacts.hit_same_row e p j r He Hp E). lia.
Qed.

Lemma lane_enemy_misses_start (e : Enemy.t) (g : Game) :
  in_lane numLanes e ->
  checkCollision e (player (die numLanes numCols g)) = false.
Proof.
  intros He.
  apply (lane_enemy_misses e _ (PlayerStartRow numLanes) He);
    [reflexivity | unfold PlayerStartRow, numRows; lia].
Qed.

(** X8. An enemy in one of the lanes 1 .. numLanes never collides with a
    player standing in a row outside the lanes: the goal row 0 and the two
    bottom rows are safe wherever the enemies are, and so is the start
    position. *)
Theorem rows_outside_lanes_are_safe (e : Enemy.t) (p : Player.t) (r : Z) :
  in_lane numLanes e ->
  Player.y p == (r * ROWHEIGHT + dy)%Z ->
  (r < 1 \/ numLanes < r)%Z ->
  checkCollision e p = false /\
  checkCollision e (setInitialPosition numLanes numCols p) = false.
Proof.
  intros He Hp Hr. split.
  - apply (lane_enemy_misses e p r); assumption.
  - apply (lane_enemy_misses e _ (PlayerStartRow numLanes) He);
      [reflexivity | unfold PlayerStartRow, numRows; lia].
Qed.

Lemma no_death_after_death (enemies : list Enemy.t) (g : Game) :
  Forall (in_lane numLanes) enemies ->
  deaths (fst (forEach_log numLanes numCols enemies
                 (die numLanes numCols g))) = O.
Proof.
  induction 1 as [| e es He _ IH]; cbn [forEach_log].
  - reflexivity.
  - rewrite (lane_enemy_misses_start e g He).
    destruct (forEach_log numLanes numCols es (die numLanes numCols g)).
    exact IH.
Qed.

(** X9. When every enemy is in a lane, one call of [checkCollisions] makes
    at most one failure transition, however many enemies overlap the
    player: the first hit puts the player on the start position, which no
    enemy in a lane reaches. *)
Theorem at_most_one_death_per_call (g : Game) :
  Forall (in_lane numLanes) (allEnemies g) ->
  (deaths (fst (checkCollisions_log numLanes numCols g)) <= 1)%nat /\
  (hits (fst (checkCollisions_log numLanes numCols g)) <= 1)%nat.
Proof.
  unfold checkCollisions_log. generalize (allEnemies g) as es.
  intros es H.
  assert (Hd : (deaths (fst (forEach_log numLanes numCols es g)) <= 1)%nat).
  { induction H as [| e es He Hes IH]; cbn [forEach_log].
    - cbn. lia.
    - destruct (checkCollision e (player g)).
      + pose proof (no_death_after_death es g Hes) as H0.
        destruct (forEach_log numLanes numCols es (die numLanes numCols g)).
        cbn in *. lia.
      + destruct (forEach_log numLanes numCols es g). exact IH. }
  split; [exact Hd |].
  destruct (CollisionsFacts.forEach_log_shape numLanes numCols es g)
    as (_ & _ & Heq).
  rewrite <- Heq. exact Hd.
Qed.

End Globals.

Lemma rows_outside_lanes_are_safe_witness :
  let e := Enemy.mk 303 140 "images/enemy-bug.png" 300 in
  let p := Player.mk 303 (-26) "images/char-boy.png" in
  checkCollision e p = false.
Proof.
  intros e p.
  apply (rows_outside_lanes_are_safe 5 7 e p 0).
  - exists 2%Z. split; [lia | reflexivity].
  - reflexivity.
  - lia.
Defined.

Lemma at_most_one_death_per_call_witness :
  let bug := Enemy.mk 250 140 "images/enemy-bug.png" 300 in
  let g := mkGame (Player.mk 303 140 "images/char-boy.png") [bug; bug; bug]
             (Stats.mk 637 682 3) in
  (deaths (fst (checkCollisions_log 5 7 g)) <= 1)%nat.
Proof.
  intros bug g.
  apply (at_most_one_death_per_call 5 7 g).
  repeat constructor; exists 2%Z; (split; [lia | reflexivity]).
Defined.

End SafeRowFacts.

(** ** Moves on the grid *)

Module MoveFacts.
Import App Grid Play.

Local Open Scope Q_scope.
Local Coercion inject_Z : Z >-> Q.

Section Globals.
Variables (numLanes numCols : Z).

Lemma handleInput_neighbour (d : option string) (c r : Z) (p : Player.t) :
  on_tile c r p ->
  on_tile (fst (neighbour numLanes numCols d c r))
          (snd (neighbour numLanes numCols d c r))
          (handleInput numLanes numCols d p).
Proof.
  intros Ht. rewrite (PlayerFacts.handleInput_on_tile _ _ d c r p Ht).
  unfold neighbour. destruct d as [d |]; [| exact Ht].
  repeat match goal with
    | |- context [String.eqb ?a ?b] => destruct (String.eqb a b)
    | |- context [(?a <? ?b)%Z] => destruct (a <? b)%Z
    end; cbn [fst snd]; try exact Ht.
  - apply PlayerFacts.on_tile_left, Ht.
  - apply PlayerFacts.on_tile_right, Ht.
  - apply PlayerFacts.on_tile_up, Ht.
  - apply PlayerFacts.on_tile_down, Ht.
Qed.

(** X10. In tile coordinates [handleInput] is a clamped step: from tile
    (c, r) "left", "right", "up" and "down" lead to the tile next to it in
    that direction and to (c, r) itself where the grid ends (column 0,
    column numCols - 1, row 0, row numRows - 1); anything else leads to
    (c, r).  The player never moves more than one tile, and never off the
    grid. *)
Theorem handleInput_is_clamped_step
  (d : option string) (c r : Z) (p : Player.t) :
  on_tile c r p ->
  let c' := fst (neighbour numLanes numCols d c r) in
  let r' := snd (neighbour numLanes numCols d c r) in
  on_tile c' r' (handleInput numLanes numCols d p) /\
  (Z.abs (c' - c) + Z.abs (r' - r) <= 1)%Z /\
  ((0 <= c <= numCols - 1)%Z -> (0 <= c' <= numCols - 1)%Z) /\
  ((0 <= r <= numRows numLanes - 1)%Z ->
   (0 <= r' <= numRows numLanes - 1)%Z).
Proof.
  intros Ht. cbv zeta. split; [apply handleInput_neighbour, Ht |].
  unfold neighbour. destruct d as [d |]; cbn [fst snd]; [| lia].
  repeat match goal with
    | |- context [String.eqb ?a ?b] => destruct (String.eqb a b)
    | |- context [(?a <? ?b)%Z] => destruct (Z.ltb_spec a b)
    end; cbn [fst snd]; lia.
Qed.

Lemma neighbour_right_left (c r : Z) :
  (0 < c <= numCols - 1)%Z ->
  neighbour numLanes numCols (Some "right"%string)
    (fst (neighbour numLanes numCols (Some "left"%string) c r))
    (snd (neighbour numLanes numCols (Some "left"%string) c r)) = (c, r).
Proof.
  intros H. unfold neighbour. cbn [String.eqb Ascii.eqb Bool.eqb fst snd].
  destruct (Z.ltb_spec 0 c); [| lia]. cbn [fst snd].
  destruct (Z.ltb_spec (c - 1) (numCols - 1)); [| lia].
  f_equal. lia.
Qed.

Lemma neighbour_left_right (c r : Z) :
  (0 <= c < numCols - 1)%Z ->
  neighbour numLanes numCols (Some "left"%string)
    (fst (neighbour numLanes numCols (Some "right"%string) c r))
    (snd (neighbour numLanes numCols (Some "right"%string) c r)) = (c, r).
Proof.
  intros H. unfold neighbour. cbn [String.eqb Ascii.eqb Bool.eqb fst snd].
  destruct (Z.ltb_spec c (numCols - 1)); [| lia]. cbn [fst snd].
  destruct (Z.ltb_spec 0 (c + 1)); [| lia].
  f_equal. lia.
Qed.

Lemma neighbour_down_up (c r : Z) :
  (0 < r <= numRows numLanes - 1)%Z ->
  neighbour numLanes numCols (Some "down"%string)
    (fst (neighbour numLanes numCols (Some "up"%string) c r))
    (snd (neighbour numLanes numCols (Some "up"%string) c r)) = (c, r).
Proof.
  intros H. unfold neighbour. cbn [String.eqb Ascii.eqb Bool.eqb fst snd].
  destruct (Z.ltb_spec 0 r); [| lia]. cbn [fst snd].
  destruct (Z.ltb_spec (r - 1) (numRows numLanes - 1)); [| lia].
  f_equal. lia.
Qed.

Lemma neighbour_up_down (c r : Z) :
  (0 <= r < numRows numLanes - 1)%Z ->
  neighbour numLanes numCols (Some "up"%string)
    (fst (neighbour numLanes numCols (Some "down"%string) c r))
    (snd (neighbour numLanes numCols (Some "down"%string) c r)) = (c, r).
Proof.
  intros H. unfold neighbour. cbn [String.eqb Ascii.eqb Bool.eqb fst snd].
  destruct (Z.ltb_spec r (numRows numLanes - 1)); [| lia]. cbn [fst snd].
  destruct (Z.ltb_spec 0 (r + 1)); [| lia].
  f_equal. lia.
Qed.

Lemma on_tile_same_position (c r : Z) (p q : Player.t) :
  on_tile c r p -> on_tile c r q ->
  Player.x q == Player.x p /\ Player.y q == Player.y p.
Proof.
  intros [Hx Hy] [Hx' Hy']. rewrite Hx, Hy, Hx', Hy'. split; reflexivity.
Qed.

(** X11. A move that is applied is undone by the opposite input: for a
    player on tile (c, r), "left" then "right" (when c > 0), "right" then
    "left" (when c < numCols - 1), "up" then "down" (when r > 0) and "down"
    then "up" (when r < numRows - 1) bring x and y back to their values. *)
Theorem opposite_inputs_cancel (c r : Z) (p : Player.t) :
  on_tile c r p ->
  (0 <= c <= numCols - 1)%Z -> (0 <= r <= numRows numLanes - 1)%Z ->
  let back (first second : string) :=
    handleInput numLanes numCols (Some second)
      (handleInput numLanes numCols (Some first) p) in
  let same (q : Player.t) :=
    Player.x q == Player.x p /\ Player.y q == Player.y p in
  ((0 < c)%Z -> same (back "left" "right")%string) /\
  ((c < numCols - 1)%Z -> same (back "right" "left")%string) /\
  ((0 < r)%Z -> same (back "up" "down")%string) /\
  ((r < numRows numLanes - 1)%Z -> same (back "down" "up")%string).
Proof.
  intros Ht Hc Hr. cbv zeta.
  split; [| split; [| split]]; intros H;
    match goal with
    | |- context [handleInput _ _ (Some ?b) (handleInput _ _ (Some ?a) p)] =>
        pose proof (handleInput_neighbour (Some b) _ _ _
                      (handleInput_neighbour (Some a) c r p Ht)) as Hq
    end.
  1: rewrite neighbour_right_left in Hq by lia.
  2: rewrite neighbour_left_right in Hq by lia.
  3: rewrite neighbour_down_up in Hq by lia.
  4: rewrite neighbour_up_down in Hq by lia.
  all: apply (on_tile_same_position c r p _ Ht Hq).
Qed.

End Globals.

Lemma handleInput_is_clamped_step_witness :
  on_tile 6 7 (handleInput 5 7 (Some "right"%string)
                 (Player.mk 606 555 "images/char-boy.png")).
Proof.
  apply (handleInput_is_clamped_step 5 7 (Some "right"%string) 6 7).
  split; reflexivity.
Defined.

Lemma opposite_inputs_cancel_witness :
  let p := Player.mk 303 555 "images/char-boy.png" in
  Player.x (handleInput 5 7 (Some "right"%string)
              (handleInput 5 7 (Some "left"%string) p)) == Player.x p.
Proof.
  intros p.
  destruct (opposite_inputs_cancel 5 7 3 7 p) as [H _];
    [split; reflexivity | cbn; lia | cbn; lia |].
  apply H. lia.
Defined.

End MoveFacts.

(** ** Crossing the grid, and the streak *)

Module SessionFacts.
Import App Grid Play.

Local Open Scope Q_scope.
Local Coercion inject_Z : Z >-> Q.

Section Globals.
Variables (numLanes numCols : Z).

Lemma play_snoc (acts : list Action) (a : Action) (p : Player.t) :
  play numLanes numCols (acts ++ [a]) p
  = act numLanes numCols (play numLanes numCols acts p) a.
Proof. unfold play. rewrite fold_left_app. reflexivity. Qed.

Lemma repeat_snoc {A} (a : A) (k : nat) : repeat a (S k) = repeat a k ++ [a].
Proof.
  induction k as [| k IH]; [reflexivity |].
  cbn [repeat app] in *. rewrite <- IH. reflexivity.
Qed.

Lemma ups_on_tile (k : nat) (p : Player.t) :
  (Z.of_nat k <= PlayerStartRow numLanes)%Z ->
  on_tile (playerStartCol numCols) (PlayerStartRow numLanes - Z.of_nat k)
    (play numLanes numCols (repeat (Input (Some "up"%string)) k) p).
Proof.
  induction k as [| k IH]; intros Hk.
  - cbn [repeat]. unfold play. cbn [fold_left].
    replace (PlayerStartRow numLanes - Z.of_nat 0)%Z
      with (PlayerStartRow numLanes) by lia.
    apply PlayerFacts.on_tile_start.
  - rewrite repeat_snoc, play_snoc. cbn [act].
    specialize (IH ltac:(lia)).
    rewrite (PlayerFacts.handleInput_on_tile _ _ _ _ _ _ IH).
    cbn [String.eqb Ascii.eqb Bool.eqb].
    destruct (Z.ltb_spec 0 (PlayerStartRow numLanes - Z.of_nat k)); [| lia].
    replace (PlayerStartRow numLanes - Z.of_nat (S k))%Z
      with (PlayerStartRow numLanes - Z.of_nat k - 1)%Z by lia.
    apply PlayerFacts.on_tile_up, IH.
Qed.

(** X12. From the start position, k times "up" with k <= PlayerStartRow
    put the player k rows higher in the start column.  After fewer than
    PlayerStartRow presses [Player.update] changes nothing; after exactly
    PlayerStartRow presses the player is in the goal row, and
    [Player.update] adds one to the streak and puts the player back on the
    start tile. *)
Theorem ups_reach_goal (k : nat) (g : Game) :
  (Z.of_nat k <= PlayerStartRow numLanes)%Z ->
  let p := play numLanes numCols (repeat (Input (Some "up"%string)) k)
             (player g) in
  let g' := Player_update numLanes numCols (with_player p g) in
  on_tile (playerStartCol numCols) (PlayerStartRow numLanes - Z.of_nat k) p /\
  ((Z.of_nat k < PlayerStartRow numLanes)%Z -> g' = with_player p g) /\
  (Z.of_nat k = PlayerStartRow numLanes ->
     Stats.streak (stats g') = (Stats.streak (stats g) + 1)%Z /\
     on_tile (playerStartCol numCols) (PlayerStartRow numLanes) (player g')).
Proof.
  intros Hk. cbv zeta.
  pose proof (ups_on_tile k (player g) Hk) as Ht.
  split; [exact Ht |].
  unfold Player_update. cbn [player with_player].
  pose proof (PlayerFacts.row_lt _ _ 1 _ Ht) as Hrow.
  change (inject_Z 1) with 1 in Hrow. rewrite Hrow.
  split; intros H.
  - destruct (Z.ltb_spec (PlayerStartRow numLanes - Z.of_nat k) 1);
      [lia | reflexivity].
  - destruct (Z.ltb_spec (PlayerStartRow numLanes - Z.of_nat k) 1); [| lia].
    split; [reflexivity | apply PlayerFacts.on_tile_start].
Qed.

Lemma transitions_snoc (ts : list Transition) (t : Transition) (g : Game) :
  transitions numLanes numCols (ts ++ [t]) g
  = transition numLanes numCols (transitions numLanes numCols ts g) t.
Proof. unfold transitions. rewrite fold_left_app. reflexivity. Qed.

Lemma streak_after_successes (n : nat) (g : Game) :
  Stats.streak (stats (transitions numLanes numCols (repeat Success n) g))
  = (Stats.streak (stats g) + Z.of_nat n)%Z.
Proof.
  induction n as [| n IH].
  - cbn. lia.
  - rewrite repeat_snoc, transitions_snoc. cbn [transition].
    unfold win. cbn. rewrite IH. lia.
Qed.

(** X13. The streak is the number of successes since the last failure: n
    successes in a row add n to it, and after a failure followed by n
    successes it is n, whatever happened before the failure.  After any
    transition the player is on the start tile. *)
Theorem streak_counts_successes_since_failure
  (before : list Transition) (n : nat) (g : Game) :
  Stats.streak (stats (transitions numLanes numCols (repeat Success n) g))
    = (Stats.streak (stats g) + Z.of_nat n)%Z /\
  Stats.streak
    (stats (transitions numLanes numCols
              (before ++ Failure :: repeat Success n) g))
    = Z.of_nat n /\
  (forall t : Transition,
      on_tile (playerStartCol numCols) (PlayerStartRow numLanes)
        (player (transitions numLanes numCols (before ++ [t]) g))).
Proof.
  split; [apply streak_after_successes | split].
  - unfold transitions. rewrite fold_left_app. cbn [fold_left].
    fold (transitions numLanes numCols before g).
    fold (transitions numLanes numCols (repeat Success n)
            (transition numLanes numCols
               (transitions numLanes numCols before g) Failure)).
    rewrite streak_after_successes. cbn. lia.
  - intros t. rewrite transitions_snoc.
    destruct t; cbn [transition]; apply PlayerFacts.on_tile_start.
Qed.

Lemma with_player_same (g : Game) : with_player (player g) g = g.
Proof. destruct g. reflexivity. Qed.

Lemma step_invariant (g : Game) (s : Step) :
  (1 <= numCols)%Z -> (1 <= numLanes)%Z ->
  on_grid numLanes numCols (player g) -> (0 <= Stats.streak (stats g))%Z ->
  on_grid numLanes numCols (player (step numLanes numCols g s)) /\
  (0 <= Stats.streak (stats (step numLanes numCols g s)))%Z /\
  allEnemies (step numLanes numCols g s) = allEnemies g /\
  Player.sprite (player (step numLanes numCols g s))
    = Player.sprite (player g).
Proof.
  intros Hc Hl Hg Hs. destruct s as [k | |]; cbn [step].
  - unfold onKeyup. cbn [player stats allEnemies with_player].
    split; [apply PlayerFacts.on_grid_handleInput, Hg |].
    split; [exact Hs | split; [reflexivity |]].
    unfold handleInput.
    destruct (allowedKeys k) as [d |]; [| reflexivity].
    repeat match goal with
      | |- context [if ?b then _ else _] => destruct b
      end; reflexivity.
  - unfold Player_update. destruct (Qltb _ _).
    + unfold win. cbn.
      split; [apply PlayerFacts.on_grid_start; assumption |].
      split; [lia | split; reflexivity].
    + repeat split; assumption.
  - rewrite CollisionsFacts.checkCollisions_outcome.
    destruct (existsb _ _).
    + unfold die. cbn.
      split; [apply PlayerFacts.on_grid_start; assumption |].
      split; [lia | split; reflexivity].
    + repeat split; assumption.
Qed.

(** X14. With at least one column and one lane, from a game whose player
    is on the grid and whose streak is not negative, any sequence of key
    events, player updates and collision checks leaves the player on a
    tile of the grid, the streak not negative, and the enemies and the
    player's sprite untouched.  A key that is not an arrow key changes
    nothing at all. *)
Theorem steps_keep_the_game_sound (ss : list Step) (g : Game) :
  (1 <= numCols)%Z -> (1 <= numLanes)%Z ->
  on_grid numLanes numCols (player g) -> (0 <= Stats.streak (stats g))%Z ->
  let g' := steps numLanes numCols ss g in
  (on_grid numLanes numCols (player g') /\
   (0 <= Stats.streak (stats g'))%Z /\
   allEnemies g' = allEnemies g /\
   Player.sprite (player g') = Player.sprite (player g)) /\
  (forall keyCode : Z,
      (keyCode < 37 \/ 40 < keyCode)%Z ->
      onKeyup numLanes numCols keyCode g = g).
Proof.
  intros Hc Hl Hg Hs. cbv zeta. split.
  - unfold steps. revert g Hg Hs.
    induction ss as [| s ss IH]; intros g Hg Hs; cbn [fold_left].
    + repeat split; assumption.
    + destruct (step_invariant g s Hc Hl Hg Hs) as (H1 & H2 & H3 & H4).
      destruct (IH _ H1 H2) as (I1 & I2 & I3 & I4).
      repeat split; try assumption; congruence.
  - intros k Hk. unfold onKeyup, allowedKeys.
    destruct (Z.eqb_spec k 37); [lia |].
    destruct (Z.eqb_spec k 38); [lia |].
    destruct (Z.eqb_spec k 39); [lia |].
    destruct (Z.eqb_spec k 40); [lia |].
    cbn [handleInput]. apply with_player_same.
Qed.

End Globals.

Lemma ups_reach_goal_witness :
  let g := mkGame (Player.mk 0 0 "images/char-boy.png") []
             (Stats.mk 637 682 2) in
  let p := play 5 7 (repeat (Input (Some "up"%string)) 7) (player g) in
  Stats.streak (stats (Player_update 5 7 (with_player p g))) = 3%Z.
Proof.
  intros g p.
  destruct (ups_reach_goal 5 7 7 g) as (_ & _ & H); [cbn; lia |].
  destruct H as [H _]; [reflexivity | exact H].
Defined.

Lemma steps_keep_the_game_sound_witness :
  let g := mkGame (Player.mk 303 555 "images/char-boy.png")
             [Enemy.mk 250 140 "images/enemy-bug.png" 300]
             (Stats.mk 637 682 0) in
  on_grid 5 7
    (player (steps 5 7 [Key 38; Key 37; Collide; UpdatePlayer; Key 13] g)).
Proof.
  intros g.
  apply (steps_keep_the_game_sound 5 7); [lia | lia | | cbn; lia].
  exists 3%Z, 7%Z. split; [lia | split; [cbn; lia | split; reflexivity]].
Defined.

End SessionFacts.

(** ** Enemies over time, and the initial game *)

Module FleetFacts.
Import App Grid Play.

Local Open Scope Q_scope.
Local Coercion inject_Z : Z >-> Q.

Section Globals.
Variables (numLanes numCols numEnemies : Z).
Variable baseEnemySpeed : Q.
Variable gameDifficulty : Z.

Hypothesis one_column : (1 <= numCols)%Z.
Hypothesis one_lane : (1 <= numLanes)%Z.
Hypothesis one_speed : (1 <= gameDifficulty)%Z.

(** What [setRandomValues] leaves, whatever the size of the settings: a
    position left of the field, the same sprite, three draws taken. *)
Lemma rolled_left (e : Enemy.t) (r : Rng) :
  fair r ->
  let e' := fst (setRandomValues numLanes numCols baseEnemySpeed
                   gameDifficulty e r) in
  let r' := snd (setRandomValues numLanes numCols baseEnemySpeed
                   gameDifficulty e r) in
  Enemy.x e' < 0 /\ Enemy.sprite e' = Enemy.sprite e /\
  fair r' /\ cursor r' = (3 + cursor r)%nat.
Proof.
  intros Hf.
  destruct (EnemyFacts.setRandomValues_rolls numLanes numCols baseEnemySpeed
              gameDifficulty e r one_column one_lane one_speed Hf)
    as (i & j & k & (Hi & _) & _ & _ & Hx & _ & _ & Hsp & Hf' & Hc).
  cbv zeta. split; [| split; [| split]]; try assumption.
  rewrite Hx.
  assert (Hi' : 1 <= inject_Z i)
    by (change 1 with (inject_Z 1); rewrite <- Zle_Qle; lia).
  unfold COLWIDTH. change (inject_Z (- (101))) with (-101). lra.
Qed.

(** X16. An enemy that has left the field on the right is rolled again by
    its update, to a position left of the field; its next update, whatever
    the time delta, is then a plain move by dt * speed that draws nothing:
    an enemy is never rolled twice in a row. *)
Theorem rolled_enemy_moves_next (dt dt' : Q) (e : Enemy.t) (r : Rng) :
  fair r ->
  (COLWIDTH * numCols)%Z <= Enemy.x e ->
  let first := Enemy_update numLanes numCols baseEnemySpeed gameDifficulty
                 dt e r in
  Enemy.x (fst first) < 0 /\
  Enemy_update numLanes numCols baseEnemySpeed gameDifficulty dt'
    (fst first) (snd first)
  = (Enemy.set_x (Enemy.x (fst first) + dt' * Enemy.speed (fst first))
       (fst first), snd first).
Proof.
  intros Hf Hx first.
  assert (Hfirst : first = setRandomValues numLanes numCols baseEnemySpeed
                             gameDifficulty e r).
  { unfold first, Enemy_update. apply Qltb_ge in Hx. rewrite Hx.
    reflexivity. }
  rewrite Hfirst. clear first Hfirst.
  destruct (rolled_left e r Hf) as (H3 & _).
  split; [exact H3 |].
  unfold Enemy_update.
  assert (Hin : Qltb (Enemy.x (fst (setRandomValues numLanes numCols
                                      baseEnemySpeed gameDifficulty e r)))
                  (COLWIDTH * numCols)%Z = true).
  { apply Qltb_lt. eapply Qlt_le_trans; [exact H3 |].
    change 0 with (inject_Z 0). rewrite <- Zle_Qle. unfold COLWIDTH. lia. }
  rewrite Hin. reflexivity.
Qed.

(** The settings fit in 52 bits, so that the values one past the lanes and
    one past the difficulty are doubles. *)
Hypothesis lanes_fit : (numLanes + 1 <= 2 ^ 52)%Z.
Hypothesis speeds_fit : (gameDifficulty + 1 <= 2 ^ 52)%Z.

(** What [setRandomValues] leaves: one of the rows 1 .. numLanes + 1, one of
    the speed steps 1 .. gameDifficulty + 1, a position left of the
    field. *)
Lemma rolled (e : Enemy.t) (r : Rng) :
  fair r ->
  let e' := fst (setRandomValues numLanes numCols baseEnemySpeed
                   gameDifficulty e r) in
  let r' := snd (setRandomValues numLanes numCols baseEnemySpeed
                   gameDifficulty e r) in
  in_lane (numLanes + 1) e' /\
  quantized baseEnemySpeed (gameDifficulty + 1) e' /\
  Enemy.x e' < 0 /\ Enemy.sprite e' = Enemy.sprite e /\
  fair r' /\ cursor r' = (3 + cursor r)%nat.
Proof.
  intros Hf.
  destruct (rolled_left e r Hf) as (H3 & H4 & H5 & H6).
  destruct (EnemyFacts.setRandomValues_rolls numLanes numCols baseEnemySpeed
              gameDifficulty e r one_column one_lane one_speed Hf)
    as (i & j & k & _ & (Hj1 & Hj2) & (Hk1 & Hk2) & _ & Hy & Hs & _).
  specialize (Hj2 lanes_fit). specialize (Hk2 speeds_fit).
  cbv zeta. split; [| split; [| split; [| split; [| split]]]];
    try assumption.
  - exists j. split; [lia |].
    rewrite Hy, inject_Z_plus, inject_Z_mult. reflexivity.
  - exists k. split; [lia |]. rewrite Hs. reflexivity.
Qed.

Lemma Enemy_update_keeps (dt : Q) (e : Enemy.t) (r : Rng) :
  fair r -> in_lane (numLanes + 1) e ->
  quantized baseEnemySpeed (gameDifficulty + 1) e ->
  let e' := fst (Enemy_update numLanes numCols baseEnemySpeed gameDifficulty
                   dt e r) in
  let r' := snd (Enemy_update numLanes numCols baseEnemySpeed gameDifficulty
                   dt e r) in
  in_lane (numLanes + 1) e' /\
  quantized baseEnemySpeed (gameDifficulty + 1) e' /\
  Enemy.sprite e' = Enemy.sprite e /\ fair r'.
Proof.
  intros Hf Hl Hq. cbv zeta. unfold Enemy_update.
  destruct (Qltb _ _).
  - cbn [fst snd ret Enemy.set_x Enemy.sprite].
    split; [| split; [| split]]; try assumption; reflexivity.
  - destruct (rolled e r Hf) as (H1 & H2 & _ & H4 & H5 & _).
    split; [| split; [| split]]; assumption.
Qed.

Lemma Enemy_updates_keep (dts : list Q) (e : Enemy.t) (r : Rng) :
  fair r -> in_lane (numLanes + 1) e ->
  quantized baseEnemySpeed (gameDifficulty + 1) e ->
  let e' := fst (Enemy_updates numLanes numCols baseEnemySpeed
                   gameDifficulty dts e r) in
  let r' := snd (Enemy_updates numLanes numCols baseEnemySpeed
                   gameDifficulty dts e r) in
  in_lane (numLanes + 1) e' /\
  quantized baseEnemySpeed (gameDifficulty + 1) e' /\
  Enemy.sprite e' = Enemy.sprite e /\ fair r'.
Proof.
  revert e r. induction dts as [| dt dts IH]; intros e r Hf Hl Hq.
  - cbn [Enemy_updates fst snd ret].
    split; [| split; [| split]]; try assumption; reflexivity.
  - cbn [Enemy_updates]. unfold bind.
    pose proof (Enemy_update_keeps dt e r Hf Hl Hq) as H.
    destruct (Enemy_update numLanes numCols baseEnemySpeed gameDifficulty
                dt e r) as [e1 r1].
    cbn [fst snd] in H. destruct H as (H1 & H2 & H3 & H4).
    destruct (IH e1 r1 H4 H1 H2) as (I1 & I2 & I3 & I4).
    cbv zeta. split; [| split; [| split]]; try assumption. congruence.
Qed.

(** X15. With at least one column, one lane and difficulty 1, settings of
    at most 52 bits and draws in [0, 1): a new enemy, after any number of
    updates with any time deltas, is in one of the rows 1 .. numLanes + 1
    (a lane, or the row just below the lanes, which the rounding in
    [getRandomInt] can produce), has one of the speeds baseEnemySpeed +
    50 k with 1 <= k <= gameDifficulty + 1, and still has the enemy
    sprite. *)
Theorem enemy_stays_in_rows (dts : list Q) (r : Rng) :
  fair r ->
  let born := Enemy_new numLanes numCols baseEnemySpeed gameDifficulty r in
  let e := fst (Enemy_updates numLanes numCols baseEnemySpeed gameDifficulty
                  dts (fst born) (snd born)) in
  in_lane (numLanes + 1) e /\
  quantized baseEnemySpeed (gameDifficulty + 1) e /\
  Enemy.sprite e = "images/enemy-bug.png"%string.
Proof.
  intros Hf. cbv zeta. unfold Enemy_new.
  destruct (rolled
              {| Enemy.x := 0; Enemy.y := 0;
                 Enemy.sprite := "images/enemy-bug.png"; Enemy.speed := 100 |}
              r Hf) as (H1 & H2 & _ & H4 & H5 & _).
  destruct (Enemy_updates_keep dts _ _ H5 H1 H2) as (I1 & I2 & I3 & _).
  split; [| split]; [exact I1 | exact I2 |].
  rewrite I3. exact H4.
Qed.

Lemma push_enemies_fresh (n : nat) (acc : list Enemy.t) (r : Rng) :
  fair r ->
  Forall (fresh (numLanes + 1) baseEnemySpeed (gameDifficulty + 1)) acc ->
  let res := push_enemies numLanes numCols baseEnemySpeed gameDifficulty
               n acc r in
  List.length (fst res) = (List.length acc + n)%nat /\
  Forall (fresh (numLanes + 1) baseEnemySpeed (gameDifficulty + 1))
    (fst res) /\
  fair (snd res) /\
  cursor (snd res) = (cursor r + 3 * n)%nat.
Proof.
  revert acc r. induction n as [| n IH]; intros acc r Hf Hacc.
  - cbn. split; [lia | split; [exact Hacc | split; [exact Hf | lia]]].
  - cbn [push_enemies]. unfold bind, Enemy_new.
    destruct (rolled
                {| Enemy.x := 0; Enemy.y := 0;
                   Enemy.sprite := "images/enemy-bug.png";
                   Enemy.speed := 100 |} r Hf)
      as (H1 & H2 & H3 & _ & H5 & H6).
    destruct (setRandomValues numLanes numCols baseEnemySpeed gameDifficulty
                _ r) as [e r1].
    cbn [fst snd] in *.
    assert (Hacc' : Forall (fresh (numLanes + 1) baseEnemySpeed
                              (gameDifficulty + 1)) (acc ++ [e])).
    { apply Forall_app. split; [exact Hacc |].
      constructor; [| constructor]. split; [| split]; assumption. }
    destruct (IH (acc ++ [e]) r1 H5 Hacc') as (I1 & I2 & I3 & I4).
    cbv zeta. split; [| split; [| split]]; try assumption.
    + rewrite I1, List.length_app. cbn. lia.
    + rewrite I4, H6. lia.
Qed.

Lemma fresh_enemies_miss_start (es : list Enemy.t) (p : Player.t) :
  Forall (fresh (numLanes + 1) baseEnemySpeed (gameDifficulty + 1)) es ->
  existsb (fun enemy =>
             checkCollision enemy (setInitialPosition numLanes numCols p)) es
  = false.
Proof.
  induction 1 as [| e es (He & _) _ IH]; cbn [existsb].
  - reflexivity.
  - rewrite IH, orb_false_r.
    apply (SafeRowFacts.lane_enemy_misses (numLanes + 1) e _
             (PlayerStartRow numLanes) He);
      [reflexivity | unfold PlayerStartRow, numRows; lia].
Qed.

(** X17. The game as app.js instantiates it (with at least one column, one
    lane and difficulty 1, settings of at most 52 bits, and draws in
    [0, 1)): there are numEnemies enemies (none when numEnemies <= 0), each
    in one of the rows 1 .. numLanes + 1, at one of the speed steps
    1 .. gameDifficulty + 1 and left of the field; the player is on the
    start tile and the streak is 0; three draws were taken per enemy; and a
    collision check of this game changes nothing. *)
Theorem Game_new_is_quiet (r : Rng) :
  fair r ->
  let g := fst (Game_new numLanes numCols numEnemies baseEnemySpeed
                  gameDifficulty r) in
  let r' := snd (Game_new numLanes numCols numEnemies baseEnemySpeed
                   gameDifficulty r) in
  List.length (allEnemies g) = Z.to_nat numEnemies /\
  Forall (fresh (numLanes + 1) baseEnemySpeed (gameDifficulty + 1))
    (allEnemies g) /\
  on_tile (playerStartCol numCols) (PlayerStartRow numLanes) (player g) /\
  Stats.streak (stats g) = 0%Z /\
  cursor r' = (cursor r + 3 * Z.to_nat numEnemies)%nat /\
  checkCollisions numLanes numCols g = g.
Proof.
  intros Hf. cbv zeta. unfold Game_new, bind.
  destruct (push_enemies_fresh (Z.to_nat numEnemies) [] r Hf (Forall_nil _))
    as (H1 & H2 & H3 & H4).
  destruct (push_enemies numLanes numCols baseEnemySpeed gameDifficulty
              (Z.to_nat numEnemies) [] r) as [es r1].
  cbn [fst snd ret allEnemies player stats] in *.
  split; [exact H1 |]. split; [exact H2 |].
  split; [apply PlayerFacts.on_tile_start |].
  split; [reflexivity |]. split; [exact H4 |].
  rewrite CollisionsFacts.checkCollisions_outcome.
  cbn [allEnemies player]. unfold Player_new.
  rewrite (fresh_enemies_miss_start es _ H2). reflexivity.
Qed.

End Globals.

Lemma enemy_stays_in_rows_witness :
  in_lane (5 + 1)
    (fst (Enemy_updates 5 7 200 4 [1 # 60; 1 # 30; 3]
            (fst (Enemy_new 5 7 200 4 half))
            (snd (Enemy_new 5 7 200 4 half)))).
Proof.
  destruct (enemy_stays_in_rows 5 7 200 4 ltac:(lia) ltac:(lia) ltac:(lia)
              ltac:(lia) ltac:(lia) [1 # 60; 1 # 30; 3] half
              EnemyFacts.fair_half) as [H _].
  exact H.
Defined.

Lemma rolled_enemy_moves_next_witness :
  let bug := Enemy.mk 707 140 "images/enemy-bug.png" 300 in
  Enemy.x (fst (Enemy_update 5 7 200 4 (1 # 60) bug half)) < 0.
Proof.
  intros bug.
  destruct (rolled_enemy_moves_next 5 7 200 4 ltac:(lia) ltac:(lia) ltac:(lia)
              (1 # 60) (1 # 60) bug half EnemyFacts.fair_half) as [H _];
    [discriminate | exact H].
Defined.

Lemma Game_new_is_quiet_witness :
  List.length (allEnemies (fst (Game_new 5 7 10 200 4 half))) = 10%nat.
Proof.
  destruct (Game_new_is_quiet 5 7 10 200 4 ltac:(lia) ltac:(lia) ltac:(lia)
              ltac:(lia) ltac:(lia) half EnemyFacts.fair_half) as [H _].
  exact H.
Defined.

End FleetFacts.

(** ** Canvas scaling and the scoreboard of the CONFIG-based variant *)

Module VariantFacts.
Import CONFIG Variant.

Local Open Scope Q_scope.







Lemma outcome_scores (w : World) (o : Outcome) :
  value (wins (outcome w o))
    = (value (wins w) + (if is_won o then 1 else 0))%Z /\
  value (deaths (outcome w o))
    = (value (deaths w) + (if is_won o then 0 else 1))%Z /\
  value (streak (outcome w o))
    = (if is_won o then value (streak w) + 1 else 0)%Z /\
  config (outcome w o) = config w.
Proof. destruct o; cbn; repeat split; lia. Qed.

(** X20. Over any sequence of wins and deaths, the wins counter grows by
    the number of wins and the deaths counter by the number of deaths, the
    settings are not touched, and a streak that was between 0 and the wins
    counter stays between 0 and the wins counter. *)
Theorem scoreboard_counts (os : list Outcome) (w : World) :
  let w' := outcomes os w in
  value (wins w') = (value (wins w) + successes os)%Z /\
  value (deaths w') = (value (deaths w) + failures os)%Z /\
  config w' = config w /\
  ((0 <= value (streak w) <= value (wins w))%Z ->
   (0 <= value (streak w') <= value (wins w'))%Z).
Proof.
  cbv zeta. unfold outcomes, successes, failures. revert w.
  induction os as [| o os IH]; intros w; cbn [fold_left filter].
  - cbn. repeat split; lia.
  - destruct (IH (outcome w o)) as (I1 & I2 & I3 & I4).
    destruct (outcome_scores w o) as (H1 & H2 & H3 & H4).
    split; [| split; [| split]].
    + rewrite I1, H1. destruct o; cbn [is_won List.length]; lia.
    + rewrite I2, H2. destruct o; cbn [is_won negb List.length]; lia.
    + rewrite I3, H4. reflexivity.
    + intros H. apply I4. rewrite H1, H3. destruct o; cbn [is_won]; lia.
Qed.

Lemma scoreboard_counts_witness :
  let zero := mkTextEntity 687 595 "%value%" 0 [] in
  let w := mkWorld (init 4 7 10 200 4 settings0)
             (App.Player.mk 303 472 "images/char-boy.png") zero zero zero in
  (0 <= value (streak (outcomes [Won; Won; Died; Won] w))
     <= value (wins (outcomes [Won; Won; Died; Won] w)))%Z.
Proof.
  intros zero w.
  destruct (scoreboard_counts [Won; Won; Died; Won] w) as (_ & _ & _ & H).
  apply H. cbn. lia.
Defined.

(** X21. After [init] with values within the setters' bounds and any
    sequence of increment, decrement and scale calls, the start position of
    the CONFIG-based player is the start position of app.js for the current
    numbers of lanes and columns, and it is a tile of the current grid; a
    win or a death puts the player there. *)
Theorem start_position_follows_settings
  (nLanes nCols nEnemies : Z) (baseSpeed : Q) (difficulty : Z)
  (cs : list ConfigRun.Command) (w : World) :
  (1 <= nLanes <= 10)%Z -> (1 <= nCols <= 20)%Z ->
  (0 <= nEnemies <= 20)%Z -> (1 <= difficulty <= 20)%Z ->
  config w = ConfigRun.run cs
               (init nLanes nCols nEnemies baseSpeed difficulty settings0) ->
  let cfg := config w in
  let start := setInitialPosition cfg (player w) in
  start = App.setInitialPosition (getNumLanes cfg) (getNumCols cfg) (player w)
  /\
  Grid.on_grid (getNumLanes cfg) (getNumCols cfg) start /\
  player (win w) = start /\ player (die w) = start.
Proof.
  intros Hl Hc He Hd Hcfg. cbv zeta.
  pose proof (ConfigFacts.run_tileset cs
    (init nLanes nCols nEnemies baseSpeed difficulty settings0)) as Ht.
  rewrite <- Hcfg in Ht. cbn in Ht.
  inversion Ht as [[Hcw Hrh Htt Htb Hth Hdy]].
  assert (Hb : ConfigOps.within_bounds (config w)).
  { rewrite Hcfg. apply ConfigMore.run_within_bounds.
    intros [| | |]; cbn; assumption. }
  pose proof (Hb ConfigRun.NumLanes) as Hl'.
  pose proof (Hb ConfigRun.NumCols) as Hc'.
  cbn in Hl', Hc'.
  assert (Heq : setInitialPosition (config w) (player w)
                = App.setInitialPosition (getNumLanes (config w))
                    (getNumCols (config w)) (player w)).
  { unfold setInitialPosition, App.setInitialPosition, getPlayerStartCol,
      getPlayerStartRow, getNativeColWidth, getNativeRowHeight, getNativeDY,
      getNumRows, App.playerStartCol, App.PlayerStartRow, App.numRows,
      getNumLanes, getNumCols.
    rewrite Hcw, Hrh, Hdy. reflexivity. }
  split; [exact Heq |]. split; [| split; reflexivity].
  rewrite Heq. apply PlayerFacts.on_grid_start; unfold getNumCols, getNumLanes;
    lia.
Qed.

Lemma start_position_follows_settings_witness :
  let cfg := ConfigRun.run [ConfigRun.Increment ConfigRun.NumCols;
                            ConfigRun.Decrement ConfigRun.NumLanes]
               (init 4 7 10 200 4 settings0) in
  let zero := mkTextEntity 687 595 "%value%" 0 [] in
  let w := mkWorld cfg (App.Player.mk 0 0 "images/char-boy.png")
             zero zero zero in
  Grid.on_grid 3 8 (player (die w)).
Proof.
  intros cfg zero w.
  destruct (start_position_follows_settings 4 7 10 200 4
              [ConfigRun.Increment ConfigRun.NumCols;
               ConfigRun.Decrement ConfigRun.NumLanes] w)
    as (_ & H & _ & _); try lia; [reflexivity | exact H].
Defined.

End VariantFacts.
